(** * AM modulation script ([graph.py]): signal synthesis and spectrum

    A shallow embedding of the computational part of [graph.py]: the derived
    scalars, the time grid, the three time-domain signals, the envelopes, the
    frequency axis and the magnitude spectrum.  The plotting and printing
    statements have no effect on these values and are left out.

    Numbers.  The script computes with Python ints and floats and with numpy
    float64 arrays.  Here every number is a real ([R]): the development is
    about the arithmetic the script performs, not about binary64 rounding.
    What the embedding keeps of the machine semantics is the control flow:
    which operations raise a Python exception and which do not. *)

From Stdlib Require Import Reals Lra Lia ZArith List.
Import ListNotations.

Open Scope R_scope.

(** ** Python exceptions *)

Inductive PyError : Type :=
| ValueError
| IndexError
| ZeroDivisionError.

Inductive Result (A : Type) : Type :=
| Ok (a : A)
| Raise (e : PyError).

Arguments Ok {A} a.
Arguments Raise {A} e.

Definition bind {A B : Type} (m : Result A) (k : A -> Result B) : Result B :=
  match m with
  | Ok a => k a
  | Raise e => Raise e
  end.

Notation "x <- m ;; k" := (bind m (fun x => k))
  (at level 61, m at next level, right associativity).

Definition raises {A : Type} (m : Result A) : Prop :=
  exists e, m = Raise e.

(** ** Scalar and array primitives *)

(** Python's [a / b] on ints and floats: [ZeroDivisionError] on a zero
    divisor. *)
Definition py_truediv (a b : R) : Result R :=
  if Req_dec_T b 0 then Raise ZeroDivisionError else Ok (a / b).

(** numpy's float64 [a / b]: never raises.  On a zero divisor numpy warns and
    yields [inf] or [nan]; the model yields Rocq's [a / 0] there, and no
    statement below depends on that value. *)
Definition np_truediv (a b : R) : R := a / b.

(** [a[i]] on a one-dimensional array, for [i >= 0]. *)
Definition getitem (a : list R) (i : nat) : Result R :=
  match nth_error a i with
  | Some v => Ok v
  | None => Raise IndexError
  end.

(** [range(lo, hi)] as reals, the contents of [np.arange(lo, hi)]. *)
Definition arange (lo hi : Z) : list R :=
  map (fun i => IZR (lo + Z.of_nat i)) (seq 0 (Z.to_nat (hi - lo))).

(** [y[-1] = v] on a non-empty array. *)
Definition set_last (y : list R) (v : R) : list R :=
  removelast y ++ [v].

(** [np.linspace(start, stop, num)] with the default [endpoint=True]. *)
Definition linspace (start stop : R) (num : Z) : Result (list R) :=
  if (num <? 0)%Z then Raise ValueError
  else
    let div := (num - 1)%Z in
    let delta := stop - start in
    let y := arange 0 num in
    let y :=
      if (0 <? div)%Z then
        let step := delta / IZR div in
        if Req_dec_T step 0
        then map (fun v => v / IZR div * delta) y
        else map (fun v => v * step) y
      else map (fun v => v * delta) y in
    let y := map (fun v => v + start) y in
    Ok (if (1 <? num)%Z then set_last y stop else y).

(** Elementwise product of two arrays of one shape. *)
Fixpoint np_multiply (a b : list R) : list R :=
  match a, b with
  | x :: a', y :: b' => x * y :: np_multiply a' b'
  | _, _ => []
  end.

(** ** Parameters *)

Record Params : Type := mkParams {
  E_m : R;
  E_c : R;
  omega_m : R;
  omega_c : R;
  duration : R;
  samples : Z
}.

(** The script's literal values; [duration = 0.1]. *)
Definition defaults : Params :=
  mkParams 100 150 200 3000 (1 / 10) 1000.

(** ** Derived scalars *)

Definition f_m (p : Params) : Result R := py_truediv (omega_m p) (2 * PI).
Definition f_c (p : Params) : Result R := py_truediv (omega_c p) (2 * PI).
Definition modulation_index (p : Params) : Result R :=
  py_truediv (E_m p) (E_c p).

(** ** Signal generation *)

Definition t (p : Params) : Result (list R) :=
  linspace 0 (duration p) (samples p).

Definition baseband_signal (p : Params) (t : list R) : list R :=
  map (fun v => E_m p * v) (map sin (map (fun v => omega_m p * v) t)).

Definition carrier_signal (p : Params) (t : list R) : list R :=
  map (fun v => E_c p * v) (map sin (map (fun v => omega_c p * v) t)).

Definition modulated_signal (p : Params) (baseband t : list R) : list R :=
  np_multiply (map (fun v => E_c p + v) baseband)
              (map sin (map (fun v => omega_c p * v) t)).

Definition upper_envelope (p : Params) (baseband : list R) : list R :=
  map (fun v => E_c p + v) baseband.

Definition lower_envelope (p : Params) (baseband : list R) : list R :=
  map Ropp (map (fun v => E_c p + v) baseband).

(** ** Complex numbers and the discrete Fourier transform *)

Record complex : Type := mkC { re : R; im : R }.

Definition Cadd (a b : complex) : complex :=
  mkC (re a + re b) (im a + im b).

Definition Cmul (a b : complex) : complex :=
  mkC (re a * re b - im a * im b) (re a * im b + im a * re b).

Definition Cscal (c : R) (a : complex) : complex :=
  mkC (c * re a) (c * im a).

Definition Cof (x : R) : complex := mkC x 0.

(** [exp(i * theta)]. *)
Definition Cexpi (theta : R) : complex := mkC (cos theta) (sin theta).

(** [np.abs] on a complex number. *)
Definition Cabs (a : complex) : R := sqrt (re a * re a + im a * im a).

Definition Csum (l : list complex) : complex :=
  fold_right Cadd (mkC 0 0) l.

(** Bin [k] of the transform of [x] with sign [s] in the exponent:
    [sum_n x[n] * exp(s * 2 pi i k n / N)], [N = len(x)]. *)
Definition dft_bin (s : R) (x : list complex) (k : nat) : complex :=
  Csum (map (fun n =>
               Cmul (nth n x (mkC 0 0))
                    (Cexpi (s * (2 * PI * INR k * INR n / INR (length x)))))
            (seq 0 (length x))).

(** [scipy.fft.fft(x)] on a real one-dimensional array: the forward,
    un-normalized, two-sided transform; [ValueError] on an empty array. *)
Definition fft (x : list R) : Result (list complex) :=
  match x with
  | [] => Raise ValueError
  | _ => Ok (map (dft_bin (-1) (map Cof x)) (seq 0 (length x)))
  end.

(** The inverse transform, [ifft(X)[m] = (1/N) sum_k X[k] exp(2 pi i k m / N)].
    The script does not call it; the round-trip property is stated with it. *)
Definition ifft (X : list complex) : Result (list complex) :=
  match X with
  | [] => Raise ValueError
  | _ => Ok (map (fun m => Cscal (1 / INR (length X)) (dft_bin 1 X m))
                 (seq 0 (length X)))
  end.

(** [fftfreq(n, d)]: [val = 1.0 / (n * d)], the integers
    [0 .. (n-1)//2] followed by [-(n//2) .. -1], all times [val]. *)
Definition fftfreq (n : Z) (d : R) : list R :=
  let val := np_truediv 1 (IZR n * d) in
  let N := ((n - 1) / 2 + 1)%Z in
  let p1 := arange 0 N in
  let p2 := arange (- (n / 2)) 0 in
  map (fun r => r * val) (p1 ++ p2).

(** ** Frequency spectrum analysis *)

Definition N (t : list R) : nat := length t.

Definition T (t : list R) : Result R :=
  t1 <- getitem t 1 ;;
  t0 <- getitem t 0 ;;
  Ok (t1 - t0).

Definition frequencies (N : nat) (T : R) : list R :=
  firstn (N / 2) (fftfreq (Z.of_nat N) T).

Definition modulated_fft (modulated : list R) : Result (list complex) :=
  fft modulated.

Definition modulated_magnitude (N : nat) (modulated_fft : list complex)
  : Result (list R) :=
  c <- py_truediv 2 (INR N) ;;
  Ok (map (fun v => c * v) (map Cabs (firstn (N / 2) modulated_fft))).

(** ** The script, top to bottom *)

Record Output : Type := mkOutput {
  out_f_m : R;
  out_f_c : R;
  out_modulation_index : R;
  out_t : list R;
  out_baseband_signal : list R;
  out_carrier_signal : list R;
  out_modulated_signal : list R;
  out_upper_envelope : list R;
  out_lower_envelope : list R;
  out_N : nat;
  out_T : R;
  out_frequencies : list R;
  out_modulated_fft : list complex;
  out_modulated_magnitude : list R
}.

Definition run (p : Params) : Result Output :=
  v_f_m <- f_m p ;;
  v_f_c <- f_c p ;;
  v_index <- modulation_index p ;;
  v_t <- t p ;;
  let v_baseband := baseband_signal p v_t in
  let v_carrier := carrier_signal p v_t in
  let v_modulated := modulated_signal p v_baseband v_t in
  let v_upper := upper_envelope p v_baseband in
  let v_lower := lower_envelope p v_baseband in
  let v_N := N v_t in
  v_T <- T v_t ;;
  let v_frequencies := frequencies v_N v_T in
  v_fft <- modulated_fft v_modulated ;;
  v_magnitude <- modulated_magnitude v_N v_fft ;;
  Ok (mkOutput v_f_m v_f_c v_index v_t v_baseband v_carrier v_modulated
               v_upper v_lower v_N v_T v_frequencies v_fft v_magnitude).

(** The contract of the synthesizer: positive amplitudes and angular
    frequencies, positive duration, at least two samples. *)
Definition valid (p : Params) : Prop :=
  0 < E_m p /\ 0 < E_c p /\ 0 < omega_m p /\ 0 < omega_c p /\
  0 < duration p /\ (2 <= samples p)%Z.

(** ** Reference definitions used in the statements *)

Definition Rsum (l : list R) : R := fold_right Rplus 0 l.

(** The discrete Fourier transform as the textbook writes it, for a real
    sequence: [DFT(x)[k] = sum_n x[n] (cos(2 pi k n / N) - i sin(2 pi k n / N))]. *)
Definition DFT (x : list R) (k : nat) : complex :=
  mkC (Rsum (map (fun n => nth n x 0 * cos (2 * PI * INR k * INR n / INR (length x)))
                 (seq 0 (length x))))
      (- Rsum (map (fun n => nth n x 0 * sin (2 * PI * INR k * INR n / INR (length x)))
                   (seq 0 (length x)))).

(** The workspace the script ends with, given its time grid. *)
Definition workspace (p : Params) (l : list R) : Output :=
  let b := baseband_signal p l in
  let m := modulated_signal p b l in
  let F := map (dft_bin (-1) (map Cof m)) (seq 0 (length m)) in
  mkOutput (omega_m p / (2 * PI)) (omega_c p / (2 * PI)) (E_m p / E_c p)
           l b (carrier_signal p l) m
           (upper_envelope p b) (lower_envelope p b)
           (length l) (nth 1 l 0 - nth 0 l 0)
           (frequencies (length l) (nth 1 l 0 - nth 0 l 0))
           F
           (map (fun v => 2 / INR (length l) * v)
                (map Cabs (firstn (length l / 2) F))).

(** The condition under which [run] returns a result: at least two samples
    and a non-zero carrier amplitude. *)
Definition completes (p : Params) : Prop :=
  (2 <= samples p)%Z /\ E_c p <> 0.

(** ** Zoomed view and plot axes *)

(** The time axis of the plots, [t * 1000] (milliseconds). *)
Definition to_ms (a : list R) : list R := map (fun v => v * 1000) a.

(** [zoom_duration = 0.02]. *)
Definition zoom_duration : R := 2 / 100.

(** [a <= v], elementwise: a boolean array. *)
Definition np_less_equal (a : list R) (v : R) : list bool :=
  map (fun x => if Rle_dec x v then true else false) a.

Definition zoom_mask (t : list R) : list bool :=
  np_less_equal t zoom_duration.

(** The entries of [a] where [mask] is true, in order. *)
Fixpoint compress (mask : list bool) (a : list R) : list R :=
  match mask, a with
  | b :: mask', x :: a' =>
      if b then x :: compress mask' a' else compress mask' a'
  | _, _ => []
  end.

(** [a[mask]] for a boolean array [mask]: [IndexError] unless the two have
    the same length. *)
Definition getmask (a : list R) (mask : list bool) : Result (list R) :=
  if (length mask =? length a)%nat then Ok (compress mask a)
  else Raise IndexError.

(** What the second figure plots, from the time grid [t] and the sequences
    computed from it: [t[zoom_mask] * 1000] and the five masked sequences.
    The script evaluates [t[zoom_mask]] once per [plot] call, each time with
    the same result. *)
Record Zoomed : Type := mkZoomed {
  zoom_t_ms : list R;
  zoom_baseband : list R;
  zoom_carrier : list R;
  zoom_modulated : list R;
  zoom_upper : list R;
  zoom_lower : list R
}.

Definition zoomed_view (p : Params) (t : list R) : Result Zoomed :=
  let v_baseband := baseband_signal p t in
  let v_mask := zoom_mask t in
  v_t <- getmask t v_mask ;;
  v_b <- getmask v_baseband v_mask ;;
  v_c <- getmask (carrier_signal p t) v_mask ;;
  v_m <- getmask (modulated_signal p v_baseband t) v_mask ;;
  v_u <- getmask (upper_envelope p v_baseband) v_mask ;;
  v_l <- getmask (lower_envelope p v_baseband) v_mask ;;
  Ok (mkZoomed (to_ms v_t) v_b v_c v_m v_u v_l).

(** The marker lines of the spectrum plot, [f_c + f_m] and [f_c - f_m]. *)
Definition upper_sideband (o : Output) : R := out_f_c o + out_f_m o.
Definition lower_sideband (o : Output) : R := out_f_c o - out_f_m o.

(** * Properties *)

(** ** Array primitives *)

(** [nth] through a [map] whose function need not fix the default. *)
Lemma map_nth_lt {A B : Type} (f : A -> B) (l : list A) (i : nat) (a : A) (b : B) :
  (i < length l)%nat -> nth i (map f l) b = f (nth i l a).
Proof.
  intros Hi. rewrite nth_indep with (d' := f a) by now rewrite length_map.
  apply map_nth.
Qed.

Lemma arange_length (lo hi : Z) :
  length (arange lo hi) = Z.to_nat (hi - lo).
Proof. unfold arange. now rewrite length_map, length_seq. Qed.

Lemma arange_nth (lo hi : Z) (i : nat) (d : R) :
  (i < Z.to_nat (hi - lo))%nat ->
  nth i (arange lo hi) d = IZR (lo + Z.of_nat i).
Proof.
  intros Hi. unfold arange.
  rewrite map_nth_lt with (a := 0%nat) by now rewrite length_seq.
  now rewrite seq_nth.
Qed.

Lemma set_last_length (y : list R) (v : R) :
  y <> [] -> length (set_last y v) = length y.
Proof.
  intros Hy. unfold set_last.
  rewrite length_app, removelast_firstn_len, length_firstn. simpl.
  destruct y; [congruence | simpl; lia].
Qed.

Lemma set_last_nth_front (y : list R) (v d : R) (i : nat) :
  (S i < length y)%nat -> nth i (set_last y v) d = nth i y d.
Proof.
  intros Hi. unfold set_last.
  rewrite app_nth1.
  - rewrite removelast_firstn_len, nth_firstn.
    destruct (Nat.ltb_spec i (Nat.pred (length y))); [reflexivity | lia].
  - rewrite removelast_firstn_len, length_firstn. lia.
Qed.

Lemma set_last_nth_last (y : list R) (v d : R) :
  nth (length y - 1) (set_last y v) d = v.
Proof.
  unfold set_last.
  rewrite app_nth2; rewrite removelast_firstn_len, length_firstn.
  - replace (length y - 1 - Nat.min (Nat.pred (length y)) (length y))%nat
      with 0%nat by lia.
    reflexivity.
  - lia.
Qed.

Lemma np_multiply_length (a b : list R) :
  length a = length b -> length (np_multiply a b) = length a.
Proof.
  revert b. induction a as [|x a IH]; intros [|y b] H; simpl in *;
    try congruence; try discriminate.
  f_equal. apply IH. congruence.
Qed.

Lemma np_multiply_nth (a b : list R) (i : nat) :
  length a = length b -> (i < length a)%nat ->
  nth i (np_multiply a b) 0 = nth i a 0 * nth i b 0.
Proof.
  revert b i. induction a as [|x a IH]; intros [|y b] i H Hi; simpl in *;
    try lia; try discriminate.
  destruct i as [|i]; [reflexivity|].
  apply IH; [congruence | lia].
Qed.

(** ** The time grid *)

Lemma linspace_negative (start stop : R) (num : Z) :
  (num < 0)%Z -> linspace start stop num = Raise ValueError.
Proof.
  intros H. unfold linspace.
  destruct (Z.ltb_spec num 0); [reflexivity | lia].
Qed.

Lemma linspace_short (start stop : R) (num : Z) :
  (0 <= num < 2)%Z ->
  exists l, linspace start stop num = Ok l /\ length l = Z.to_nat num.
Proof.
  intros H. unfold linspace.
  destruct (Z.ltb_spec num 0); [lia|].
  destruct (Z.ltb_spec 0 (num - 1)); [lia|].
  destruct (Z.ltb_spec 1 num); [lia|].
  eexists; split; [reflexivity|].
  rewrite !length_map, arange_length. f_equal. lia.
Qed.

Lemma linspace_ok (start stop : R) (num : Z) :
  (2 <= num)%Z ->
  exists l, linspace start stop num = Ok l /\
    length l = Z.to_nat num /\
    forall i, (i < Z.to_nat num)%nat ->
      nth i l 0 = start + INR i * (stop - start) / (IZR num - 1).
Proof.
  intros Hnum. unfold linspace.
  destruct (Z.ltb_spec num 0); [lia|].
  destruct (Z.ltb_spec 0 (num - 1)); [|lia].
  destruct (Z.ltb_spec 1 num); [|lia].
  assert (Hdiv : IZR (num - 1) = IZR num - 1) by now rewrite minus_IZR.
  assert (Hpos : 0 < IZR num - 1).
  { rewrite <- Hdiv. apply IZR_lt. lia. }
  rewrite Hdiv.
  set (y := map (fun v => v + start) _).
  assert (Hlen : length y = Z.to_nat num).
  { subst y. destruct (Req_dec_T _ 0);
      rewrite !length_map, arange_length; f_equal; lia. }
  assert (Hy : forall i, (i < Z.to_nat num)%nat ->
                 nth i y 0 = start + INR i * (stop - start) / (IZR num - 1)).
  { intros i Hi. subst y.
    assert (Hi' : (i < Z.to_nat (num - 0))%nat) by (rewrite Z.sub_0_r; exact Hi).
    destruct (Req_dec_T ((stop - start) / (IZR num - 1)) 0) as [Hz | Hnz].
    - assert (Hd : stop - start = 0).
      { apply Rmult_eq_compat_r with (r := IZR num - 1) in Hz.
        unfold Rdiv in Hz. rewrite Rmult_assoc, Rinv_l, Rmult_0_l in Hz; lra. }
      rewrite map_nth_lt with (a := 0)
        by now rewrite length_map, arange_length.
      rewrite map_nth_lt with (a := 0) by now rewrite arange_length.
      rewrite Hd. unfold Rdiv. lra.
    - rewrite map_nth_lt with (a := 0)
        by now rewrite length_map, arange_length.
      rewrite map_nth_lt with (a := 0) by now rewrite arange_length.
      rewrite arange_nth by assumption.
      rewrite Z.add_0_l, <- INR_IZR_INZ. unfold Rdiv. lra. }
  eexists; split; [reflexivity|]. split.
  - rewrite set_last_length; [exact Hlen|].
    intros E. rewrite E in Hlen. simpl in Hlen. lia.
  - intros i Hi.
    destruct (Nat.eq_dec (S i) (Z.to_nat num)) as [Hlast | Hfront].
    + replace i with (length y - 1)%nat by lia.
      rewrite set_last_nth_last.
      replace (INR (length y - 1)) with (IZR num - 1).
      * field. lra.
      * rewrite Hlen, minus_INR by lia. rewrite INR_IZR_INZ, Z2Nat.id by lia.
        simpl. lra.
    + rewrite set_last_nth_front by lia. apply Hy. exact Hi.
Qed.

(** ** Scalars *)

Lemma py_truediv_ok (a b : R) : b <> 0 -> py_truediv a b = Ok (a / b).
Proof. intros H. unfold py_truediv. now destruct (Req_dec_T b 0). Qed.

Lemma py_truediv_zero (a : R) : py_truediv a 0 = Raise ZeroDivisionError.
Proof. unfold py_truediv. now destruct (Req_dec_T 0 0). Qed.

Lemma two_PI_neq0 : 2 * PI <> 0.
Proof. pose proof PI_RGT_0. lra. Qed.

Lemma f_m_ok (p : Params) : f_m p = Ok (omega_m p / (2 * PI)).
Proof. apply py_truediv_ok, two_PI_neq0. Qed.

Lemma f_c_ok (p : Params) : f_c p = Ok (omega_c p / (2 * PI)).
Proof. apply py_truediv_ok, two_PI_neq0. Qed.

(** ** Signals, pointwise *)

Lemma baseband_signal_length (p : Params) (l : list R) :
  length (baseband_signal p l) = length l.
Proof. unfold baseband_signal. now rewrite !length_map. Qed.

Lemma carrier_signal_length (p : Params) (l : list R) :
  length (carrier_signal p l) = length l.
Proof. unfold carrier_signal. now rewrite !length_map. Qed.

Lemma modulated_signal_length (p : Params) (b l : list R) :
  length b = length l -> length (modulated_signal p b l) = length l.
Proof.
  intros H. unfold modulated_signal.
  rewrite np_multiply_length; rewrite !length_map; congruence.
Qed.

Lemma upper_envelope_length (p : Params) (b : list R) :
  length (upper_envelope p b) = length b.
Proof. unfold upper_envelope. now rewrite length_map. Qed.

Lemma lower_envelope_length (p : Params) (b : list R) :
  length (lower_envelope p b) = length b.
Proof. unfold lower_envelope. now rewrite !length_map. Qed.

Lemma baseband_signal_nth (p : Params) (l : list R) (i : nat) :
  (i < length l)%nat ->
  nth i (baseband_signal p l) 0 = E_m p * sin (omega_m p * nth i l 0).
Proof.
  intros Hi. unfold baseband_signal.
  rewrite map_nth_lt with (a := 0) by now rewrite !length_map.
  rewrite map_nth_lt with (a := 0) by now rewrite length_map.
  now rewrite map_nth_lt with (a := 0).
Qed.

Lemma carrier_signal_nth (p : Params) (l : list R) (i : nat) :
  (i < length l)%nat ->
  nth i (carrier_signal p l) 0 = E_c p * sin (omega_c p * nth i l 0).
Proof.
  intros Hi. unfold carrier_signal.
  rewrite map_nth_lt with (a := 0) by now rewrite !length_map.
  rewrite map_nth_lt with (a := 0) by now rewrite length_map.
  now rewrite map_nth_lt with (a := 0).
Qed.

Lemma modulated_signal_nth (p : Params) (b l : list R) (i : nat) :
  length b = length l -> (i < length l)%nat ->
  nth i (modulated_signal p b l) 0
  = (E_c p + nth i b 0) * sin (omega_c p * nth i l 0).
Proof.
  intros Hb Hi. unfold modulated_signal.
  rewrite np_multiply_nth; rewrite ?length_map; try congruence.
  rewrite map_nth_lt with (a := 0) by congruence.
  rewrite map_nth_lt with (a := 0) by now rewrite length_map.
  now rewrite map_nth_lt with (a := 0).
Qed.

Lemma upper_envelope_nth (p : Params) (b : list R) (i : nat) :
  (i < length b)%nat -> nth i (upper_envelope p b) 0 = E_c p + nth i b 0.
Proof. intros Hi. unfold upper_envelope. now rewrite map_nth_lt with (a := 0). Qed.

Lemma lower_envelope_nth (p : Params) (b : list R) (i : nat) :
  (i < length b)%nat ->
  nth i (lower_envelope p b) 0 = - nth i (upper_envelope p b) 0.
Proof.
  intros Hi. unfold lower_envelope, upper_envelope.
  rewrite map_nth_lt with (a := 0) by now rewrite length_map.
  reflexivity.
Qed.

(** ** Running the script *)

Lemma getitem_lt (a : list R) (i : nat) :
  (i < length a)%nat -> getitem a i = Ok (nth i a 0).
Proof.
  intros Hi. unfold getitem.
  now rewrite (nth_error_nth' a 0 Hi).
Qed.

Lemma getitem_ge (a : list R) (i : nat) :
  (length a <= i)%nat -> getitem a i = Raise IndexError.
Proof.
  intros Hi. unfold getitem.
  apply nth_error_None in Hi. now rewrite Hi.
Qed.

Lemma T_ok (l : list R) :
  (2 <= length l)%nat -> T l = Ok (nth 1 l 0 - nth 0 l 0).
Proof.
  intros H. unfold T. rewrite !getitem_lt by lia. reflexivity.
Qed.

Lemma T_short (l : list R) :
  (length l < 2)%nat -> T l = Raise IndexError.
Proof.
  intros H. unfold T. rewrite getitem_ge by lia. reflexivity.
Qed.

Lemma fft_ok (x : list R) :
  x <> [] ->
  fft x = Ok (map (dft_bin (-1) (map Cof x)) (seq 0 (length x))).
Proof. destruct x; [congruence | reflexivity]. Qed.

Lemma run_grid (p : Params) (l : list R) :
  E_c p <> 0 -> t p = Ok l -> (2 <= length l)%nat ->
  run p = Ok (workspace p l).
Proof.
  intros Hc Ht Hl. unfold run.
  rewrite f_m_ok, f_c_ok. unfold modulation_index.
  rewrite py_truediv_ok by assumption. simpl.
  rewrite Ht. simpl. unfold N.
  rewrite T_ok by assumption. simpl.
  unfold modulated_fft. rewrite fft_ok.
  - simpl. unfold modulated_magnitude.
    rewrite py_truediv_ok.
    + reflexivity.
    + apply not_0_INR. lia.
  - intros E. apply (f_equal (@length R)) in E.
    rewrite modulated_signal_length in E
      by apply baseband_signal_length.
    simpl in E. lia.
Qed.

Lemma run_completes (p : Params) :
  completes p ->
  exists l, t p = Ok l /\ length l = Z.to_nat (samples p) /\
            run p = Ok (workspace p l).
Proof.
  intros [Hs Hc].
  destruct (linspace_ok 0 (duration p) (samples p) Hs) as (l & Hl & Hlen & _).
  exists l. split; [exact Hl|]. split; [exact Hlen|].
  apply run_grid; try assumption. lia.
Qed.

Lemma valid_completes (p : Params) : valid p -> completes p.
Proof. intros (_ & Hc & _ & _ & _ & Hs). split; [exact Hs | lra]. Qed.

Lemma run_inv (p : Params) (o : Output) :
  run p = Ok o ->
  exists l, t p = Ok l /\ (2 <= length l)%nat /\ E_c p <> 0 /\
            o = workspace p l.
Proof.
  intros Hrun.
  destruct (Req_dec_T (E_c p) 0) as [Hz | Hc].
  - unfold run, modulation_index in Hrun.
    rewrite f_m_ok, f_c_ok, Hz, py_truediv_zero in Hrun. discriminate.
  - destruct (t p) as [l | e] eqn:Ht.
    + destruct (le_lt_dec 2 (length l)) as [Hl | Hl].
      * exists l. rewrite (run_grid p l Hc Ht Hl) in Hrun.
        injection Hrun as <-. auto.
      * unfold run, modulation_index in Hrun.
        rewrite f_m_ok, f_c_ok, py_truediv_ok, Ht in Hrun by assumption.
        simpl in Hrun. rewrite T_short in Hrun by assumption. discriminate.
    + unfold run, modulation_index in Hrun.
      rewrite f_m_ok, f_c_ok, py_truediv_ok, Ht in Hrun by assumption.
      discriminate.
Qed.

Lemma valid_defaults : valid defaults.
Proof. unfold valid, defaults; simpl. repeat split; try lra; lia. Qed.

(** ** Signal synthesizer *)

(** C1: the script runs on valid parameters, and at every index [i < N] the
    baseband sample is [E_m * sin(omega_m * t[i])] and the modulated sample is
    the product [(E_c + baseband[i]) * sin(omega_c * t[i])]. *)
Theorem modulated_signal_pointwise (p : Params) :
  valid p ->
  exists o, run p = Ok o /\
    out_N o = Z.to_nat (samples p) /\
    length (out_t o) = out_N o /\
    length (out_baseband_signal o) = out_N o /\
    length (out_modulated_signal o) = out_N o /\
    forall i, (i < out_N o)%nat ->
      nth i (out_baseband_signal o) 0
      = E_m p * sin (omega_m p * nth i (out_t o) 0) /\
      nth i (out_modulated_signal o) 0
      = (E_c p + nth i (out_baseband_signal o) 0)
        * sin (omega_c p * nth i (out_t o) 0).
Proof.
  intros Hv.
  destruct (run_completes p (valid_completes p Hv)) as (l & _ & Hlen & Hrun).
  exists (workspace p l). split; [exact Hrun|]. simpl.
  repeat split; auto using baseband_signal_length.
  - rewrite modulated_signal_length; auto using baseband_signal_length.
  - now apply baseband_signal_nth.
  - apply modulated_signal_nth; auto using baseband_signal_length.
Qed.

Lemma modulated_signal_pointwise_witness :
  valid defaults /\
  exists o, run defaults = Ok o /\ out_N o = 1000%nat /\
    nth 0 (out_modulated_signal o) 0
    = (150 + nth 0 (out_baseband_signal o) 0) * sin (3000 * nth 0 (out_t o) 0).
Proof.
  split; [exact valid_defaults|].
  destruct (modulated_signal_pointwise defaults valid_defaults)
    as (o & Hrun & HN & _ & _ & _ & Hi).
  exists o. split; [exact Hrun|]. split.
  - rewrite HN. reflexivity.
  - apply (Hi 0%nat). rewrite HN. simpl. lia.
Defined.

(** C6: whenever the script runs to its end, the envelopes have the length of
    the time grid and, at every index, [upper[i] = E_c + baseband[i]],
    [lower[i] = - upper[i]] and [upper[i] + lower[i] = 0]. *)
Theorem envelopes_negate (p : Params) :
  completes p ->
  exists o, run p = Ok o /\
    length (out_upper_envelope o) = out_N o /\
    length (out_lower_envelope o) = out_N o /\
    forall i, (i < out_N o)%nat ->
      nth i (out_upper_envelope o) 0 = E_c p + nth i (out_baseband_signal o) 0 /\
      nth i (out_lower_envelope o) 0 = - nth i (out_upper_envelope o) 0 /\
      nth i (out_upper_envelope o) 0 + nth i (out_lower_envelope o) 0 = 0.
Proof.
  intros Hc.
  destruct (run_completes p Hc) as (l & _ & Hlen & Hrun).
  exists (workspace p l). split; [exact Hrun|]. simpl.
  split; [now rewrite upper_envelope_length, baseband_signal_length|].
  split; [now rewrite lower_envelope_length, baseband_signal_length|].
  intros i Hi.
  assert (Hb : (i < length (baseband_signal p l))%nat)
    by now rewrite baseband_signal_length.
  rewrite lower_envelope_nth, upper_envelope_nth by assumption.
  repeat split; lra.
Qed.

Lemma envelopes_negate_witness :
  completes (mkParams (-3) 2 5 (-1) (1 / 10) 2) /\
  exists o, run (mkParams (-3) 2 5 (-1) (1 / 10) 2) = Ok o /\
    nth 1 (out_upper_envelope o) 0 + nth 1 (out_lower_envelope o) 0 = 0.
Proof.
  assert (Hc : completes (mkParams (-3) 2 5 (-1) (1 / 10) 2)).
  { unfold completes; simpl. split; [lia | lra]. }
  split; [exact Hc|].
  destruct (envelopes_negate _ Hc) as (o & Hrun & _ & _ & Hi).
  exists o. split; [exact Hrun|].
  apply (Hi 1%nat).
  destruct (run_inv _ _ Hrun) as (l & _ & Hl & _ & ->). simpl. lia.
Defined.

(** C10: when [0 <= E_m <= E_c] the script's modulated signal stays between
    the two envelopes: [lower[i] <= modulated[i] <= upper[i]] at every index,
    and [upper[i]] is non-negative. *)
Theorem modulated_within_envelopes (p : Params) :
  completes p ->
  0 <= E_m p -> E_m p <= E_c p ->
  exists o, run p = Ok o /\
    forall i, (i < out_N o)%nat ->
      0 <= nth i (out_upper_envelope o) 0 /\
      nth i (out_lower_envelope o) 0 <= nth i (out_modulated_signal o) 0 /\
      nth i (out_modulated_signal o) 0 <= nth i (out_upper_envelope o) 0.
Proof.
  intros Hc Hm Hmc.
  destruct (run_completes p Hc) as (l & _ & Hlen & Hrun).
  exists (workspace p l). split; [exact Hrun|]. simpl.
  intros i Hi.
  assert (Hb : (i < length (baseband_signal p l))%nat)
    by now rewrite baseband_signal_length.
  rewrite lower_envelope_nth, upper_envelope_nth by assumption.
  rewrite modulated_signal_nth by auto using baseband_signal_length.
  rewrite baseband_signal_nth by assumption.
  pose proof (SIN_bound (omega_m p * nth i l 0)) as [Hs1 Hs1'].
  pose proof (SIN_bound (omega_c p * nth i l 0)) as [Hs2 Hs2'].
  set (s1 := sin (omega_m p * nth i l 0)) in *.
  set (s2 := sin (omega_c p * nth i l 0)) in *.
  assert (Hu : 0 <= E_c p + E_m p * s1) by nra.
  repeat split; nra.
Qed.

Lemma modulated_within_envelopes_witness :
  completes defaults /\ 0 <= E_m defaults /\ E_m defaults <= E_c defaults /\
  exists o, run defaults = Ok o /\
    nth 7 (out_lower_envelope o) 0 <= nth 7 (out_modulated_signal o) 0 /\
    nth 7 (out_modulated_signal o) 0 <= nth 7 (out_upper_envelope o) 0.
Proof.
  assert (Hc : completes defaults) by exact (valid_completes _ valid_defaults).
  assert (H0 : 0 <= E_m defaults) by (simpl; lra).
  assert (H1 : E_m defaults <= E_c defaults) by (simpl; lra).
  repeat (split; [assumption|]).
  destruct (modulated_within_envelopes defaults Hc H0 H1) as (o & Hrun & Hi).
  exists o. split; [exact Hrun|].
  apply (Hi 7%nat).
  destruct (run_completes _ Hc) as (l & _ & Hlen & Hrun').
  rewrite Hrun' in Hrun. injection Hrun as <-. simpl.
  rewrite Hlen. simpl. lia.
Defined.

(** C8: [f_m = omega_m / (2 pi)], [f_c = omega_c / (2 pi)] and
    [modulation_index = E_m / E_c]; the index is exactly 1 when
    [E_m = E_c], and 2/3 for [E_m = 100], [E_c = 150]; a completed run
    carries these three values. *)
Theorem derived_scalars (p : Params) :
  E_c p <> 0 ->
  f_m p = Ok (omega_m p / (2 * PI)) /\
  f_c p = Ok (omega_c p / (2 * PI)) /\
  modulation_index p = Ok (E_m p / E_c p) /\
  (E_m p = E_c p -> modulation_index p = Ok 1) /\
  (E_m p = 100 -> E_c p = 150 -> modulation_index p = Ok (2 / 3)) /\
  (forall o, run p = Ok o ->
     out_f_m o = omega_m p / (2 * PI) /\
     out_f_c o = omega_c p / (2 * PI) /\
     out_modulation_index o = E_m p / E_c p).
Proof.
  intros Hc.
  split; [apply f_m_ok|]. split; [apply f_c_ok|].
  assert (Hi : modulation_index p = Ok (E_m p / E_c p))
    by now apply py_truediv_ok.
  split; [exact Hi|]. split; [|split].
  - intros E. rewrite Hi, E. f_equal. now field.
  - intros Em Ec. rewrite Hi, Em, Ec. f_equal. lra.
  - intros o Hrun. destruct (run_inv _ _ Hrun) as (l & _ & _ & _ & ->).
    simpl. auto.
Qed.

Lemma derived_scalars_witness :
  E_c defaults <> 0 /\
  modulation_index defaults = Ok (2 / 3) /\
  modulation_index (mkParams 150 150 200 3000 (1 / 10) 1000) = Ok 1.
Proof.
  assert (H1 : E_c defaults <> 0) by (simpl; lra).
  assert (H2 : E_c (mkParams 150 150 200 3000 (1 / 10) 1000) <> 0)
    by (simpl; lra).
  split; [exact H1|]. split.
  - destruct (derived_scalars defaults H1) as (_ & _ & _ & _ & H & _).
    apply H; reflexivity.
  - destruct (derived_scalars _ H2) as (_ & _ & _ & H & _).
    apply H; reflexivity.
Defined.

(** C5: for [samples >= 2] and [duration > 0] the time grid is
    [t[i] = duration * i / (samples - 1)] for [i < samples]; it is strictly
    increasing with spacing [duration / (samples - 1)], starts at 0 and ends
    at [duration]; the time grid and the three signals all have [samples]
    entries. *)
Theorem time_grid (p : Params) :
  (2 <= samples p)%Z -> 0 < duration p ->
  exists l, t p = Ok l /\
    length l = Z.to_nat (samples p) /\
    length (baseband_signal p l) = Z.to_nat (samples p) /\
    length (carrier_signal p l) = Z.to_nat (samples p) /\
    length (modulated_signal p (baseband_signal p l) l)
    = Z.to_nat (samples p) /\
    (forall i, (i < length l)%nat ->
       nth i l 0 = duration p * INR i / (IZR (samples p) - 1)) /\
    (forall i j, (i < j < length l)%nat -> nth i l 0 < nth j l 0) /\
    (forall i, (S i < length l)%nat ->
       nth (S i) l 0 - nth i l 0 = duration p / (IZR (samples p) - 1)) /\
    nth 0 l 0 = 0 /\
    nth (length l - 1) l 0 = duration p.
Proof.
  intros Hs Hd.
  destruct (linspace_ok 0 (duration p) (samples p) Hs) as (l & Hl & Hlen & Hnth).
  assert (Hpos : 0 < IZR (samples p) - 1).
  { assert (H2 : IZR 2 <= IZR (samples p)) by now apply IZR_le. lra. }
  assert (Hv : forall i, (i < length l)%nat ->
                 nth i l 0 = duration p * INR i / (IZR (samples p) - 1)).
  { intros i Hi. rewrite Hnth by lia. unfold Rdiv. lra. }
  exists l. split; [exact Hl|]. split; [exact Hlen|].
  split; [now rewrite baseband_signal_length|].
  split; [now rewrite carrier_signal_length|].
  split; [now rewrite modulated_signal_length by apply baseband_signal_length|].
  split; [exact Hv|]. split; [|split; [|split]].
  - intros i j Hij. rewrite !Hv by lia.
    apply Rmult_lt_compat_r; [now apply Rinv_0_lt_compat|].
    apply Rmult_lt_compat_l; [assumption|]. apply lt_INR. lia.
  - intros i Hi. rewrite !Hv by lia. rewrite S_INR. field. lra.
  - rewrite Hv by lia. simpl. unfold Rdiv. lra.
  - rewrite Hv by lia. rewrite Hlen, minus_INR by lia.
    rewrite INR_IZR_INZ, Z2Nat.id by lia. simpl. field. lra.
Qed.

Lemma time_grid_witness :
  (2 <= samples defaults)%Z /\ 0 < duration defaults /\
  exists l, t defaults = Ok l /\ length l = 1000%nat /\
    nth 999 l 0 = 1 / 10.
Proof.
  assert (Hs : (2 <= samples defaults)%Z) by (simpl; lia).
  assert (Hd : 0 < duration defaults) by (simpl; lra).
  split; [exact Hs|]. split; [exact Hd|].
  destruct (time_grid defaults Hs Hd)
    as (l & Hl & Hlen & _ & _ & _ & _ & _ & _ & _ & Hend).
  exists l. split; [exact Hl|]. split; [exact Hlen|].
  rewrite Hlen in Hend. exact Hend.
Defined.

(** ** Spectral analyzer: frequency axis *)

Lemma t_values (p : Params) (l : list R) :
  (2 <= samples p)%Z -> t p = Ok l ->
  length l = Z.to_nat (samples p) /\
  forall i, (i < length l)%nat ->
    nth i l 0 = duration p * INR i / (IZR (samples p) - 1).
Proof.
  intros Hs Ht.
  destruct (linspace_ok 0 (duration p) (samples p) Hs) as (l' & Hl & Hlen & Hnth).
  unfold t in Ht. rewrite Hl in Ht. injection Ht as ->.
  split; [exact Hlen|].
  intros i Hi. rewrite Hnth by lia. unfold Rdiv. lra.
Qed.

Lemma fftfreq_length (n : nat) (d : R) :
  length (fftfreq (Z.of_nat n) d) = n.
Proof.
  unfold fftfreq. rewrite length_map, length_app, !arange_length.
  pose proof (Z.div_mod (Z.of_nat n) 2 ltac:(lia)) as H1.
  pose proof (Z.mod_pos_bound (Z.of_nat n) 2 ltac:(lia)) as H2.
  pose proof (Z.div_mod (Z.of_nat n - 1) 2 ltac:(lia)) as H3.
  pose proof (Z.mod_pos_bound (Z.of_nat n - 1) 2 ltac:(lia)) as H4.
  lia.
Qed.

Lemma half_le_front (n : nat) :
  (n / 2 <= Z.to_nat ((Z.of_nat n - 1) / 2 + 1 - 0))%nat.
Proof.
  pose proof (Nat.div_mod_eq n 2) as H0.
  pose proof (Nat.mod_upper_bound n 2 ltac:(lia)) as H0'.
  pose proof (Z.div_mod (Z.of_nat n - 1) 2 ltac:(lia)) as H3.
  pose proof (Z.mod_pos_bound (Z.of_nat n - 1) 2 ltac:(lia)) as H4.
  lia.
Qed.

Lemma frequencies_length (n : nat) (d : R) :
  length (frequencies n d) = (n / 2)%nat.
Proof.
  unfold frequencies. rewrite length_firstn, fftfreq_length.
  pose proof (Nat.div_mod_eq n 2). lia.
Qed.

Lemma frequencies_nth (n : nat) (d : R) (k : nat) :
  (k < n / 2)%nat ->
  nth k (frequencies n d) 0 = INR k / (INR n * d).
Proof.
  intros Hk. unfold frequencies.
  rewrite nth_firstn.
  destruct (Nat.ltb_spec k (n / 2)); [|lia].
  unfold fftfreq.
  pose proof (half_le_front n) as Hfront.
  rewrite map_nth_lt with (a := 0).
  - rewrite app_nth1 by (rewrite arange_length; lia).
    rewrite arange_nth by lia.
    rewrite Z.add_0_l, <- !INR_IZR_INZ.
    unfold np_truediv, Rdiv. ring.
  - rewrite length_app, arange_length. lia.
Qed.

Lemma T_spacing (p : Params) (l : list R) :
  (2 <= samples p)%Z -> t p = Ok l ->
  nth 1 l 0 - nth 0 l 0 = duration p / (IZR (samples p) - 1).
Proof.
  intros Hs Ht. destruct (t_values p l Hs Ht) as [Hlen Hv].
  assert (H2 : IZR 2 <= IZR (samples p)) by now apply IZR_le.
  rewrite !Hv by lia. simpl. field. lra.
Qed.

(** C3: on a run with [samples >= 2] and [duration > 0] the frequency axis
    has [N // 2] entries (at least one), [frequencies[k] = k / (N * T)] with
    [T = t[1] - t[0]], it is strictly increasing, starts at 0 and has no
    negative entry. *)
Theorem frequency_axis (p : Params) :
  completes p -> 0 < duration p ->
  exists o, run p = Ok o /\
    out_T o = nth 1 (out_t o) 0 - nth 0 (out_t o) 0 /\
    length (out_frequencies o) = (out_N o / 2)%nat /\
    (1 <= length (out_frequencies o))%nat /\
    (forall k, (k < out_N o / 2)%nat ->
       nth k (out_frequencies o) 0 = INR k / (INR (out_N o) * out_T o)) /\
    (forall j k, (j < k < out_N o / 2)%nat ->
       nth j (out_frequencies o) 0 < nth k (out_frequencies o) 0) /\
    nth 0 (out_frequencies o) 0 = 0 /\
    (forall k, (k < out_N o / 2)%nat -> 0 <= nth k (out_frequencies o) 0).
Proof.
  intros Hc Hd.
  destruct (run_completes p Hc) as (l & Ht & Hlen & Hrun).
  destruct Hc as [Hs Hc].
  assert (Hl : (2 <= length l)%nat) by lia.
  assert (Hhalf : (1 <= length l / 2)%nat).
  { pose proof (Nat.div_mod_eq (length l) 2).
    pose proof (Nat.mod_upper_bound (length l) 2 ltac:(lia)). lia. }
  assert (HT : 0 < nth 1 l 0 - nth 0 l 0).
  { rewrite (T_spacing p l Hs Ht).
    assert (H2 : IZR 2 <= IZR (samples p)) by now apply IZR_le.
    apply Rdiv_lt_0_compat; lra. }
  assert (HN : 0 < INR (length l)) by (apply lt_0_INR; lia).
  assert (Hden : 0 < / (INR (length l) * (nth 1 l 0 - nth 0 l 0))).
  { apply Rinv_0_lt_compat. now apply Rmult_lt_0_compat. }
  exists (workspace p l). split; [exact Hrun|].
  unfold workspace; cbn [out_T out_t out_frequencies out_N].
  split; [reflexivity|].
  split; [apply frequencies_length|].
  split; [now rewrite frequencies_length|].
  split; [intros k Hk; now apply frequencies_nth|].
  split; [|split].
  - intros j k Hjk. rewrite !frequencies_nth by lia.
    apply Rmult_lt_compat_r; [exact Hden|]. apply lt_INR. lia.
  - rewrite frequencies_nth by lia. simpl. unfold Rdiv. ring.
  - intros k Hk. rewrite frequencies_nth by lia.
    apply Rmult_le_pos; [apply pos_INR | lra].
Qed.

Lemma frequency_axis_witness :
  completes defaults /\ 0 < duration defaults /\
  exists o, run defaults = Ok o /\
    length (out_frequencies o) = 500%nat /\
    nth 0 (out_frequencies o) 0 = 0.
Proof.
  assert (Hc : completes defaults) by exact (valid_completes _ valid_defaults).
  assert (Hd : 0 < duration defaults) by (simpl; lra).
  split; [exact Hc|]. split; [exact Hd|].
  destruct (frequency_axis defaults Hc Hd)
    as (o & Hrun & _ & Hlen & _ & _ & _ & H0 & _).
  exists o. split; [exact Hrun|]. split; [|exact H0].
  rewrite Hlen.
  destruct (run_completes _ Hc) as (l & _ & Hl & Hrun').
  rewrite Hrun' in Hrun. injection Hrun as <-. simpl.
  rewrite Hl. reflexivity.
Defined.

(** ** Failure modes *)

Lemma run_zero_carrier (p : Params) :
  E_c p = 0 -> run p = Raise ZeroDivisionError.
Proof.
  intros Hz. unfold run, modulation_index.
  now rewrite f_m_ok, f_c_ok, Hz, py_truediv_zero.
Qed.

Lemma run_negative_samples (p : Params) :
  E_c p <> 0 -> (samples p < 0)%Z -> run p = Raise ValueError.
Proof.
  intros Hc Hs. unfold run, modulation_index, t.
  rewrite f_m_ok, f_c_ok, py_truediv_ok by assumption. simpl.
  now rewrite linspace_negative.
Qed.

Lemma run_short_grid (p : Params) :
  E_c p <> 0 -> (0 <= samples p < 2)%Z -> run p = Raise IndexError.
Proof.
  intros Hc Hs. unfold run, modulation_index, t.
  rewrite f_m_ok, f_c_ok, py_truediv_ok by assumption. simpl.
  destruct (linspace_short 0 (duration p) (samples p) Hs) as (l & -> & Hlen).
  simpl. rewrite T_short by (unfold N; lia). reflexivity.
Qed.

(** C4, as stated, fails: a negative amplitude is not rejected; the script
    runs to its end on [E_m = -100] with the other literals unchanged. *)
Lemma invalid_input_not_rejected :
  ~ (forall p : Params,
       (samples p <= 0)%Z \/ duration p <= 0 \/ E_m p <= 0 \/ E_c p <= 0 \/
       omega_m p <= 0 \/ omega_c p <= 0 ->
       raises (run p)).
Proof.
  intros H.
  specialize (H (mkParams (-100) 150 200 3000 (1 / 10) 1000)).
  destruct H as [e He].
  - simpl. right; right; left. lra.
  - destruct (run_completes (mkParams (-100) 150 200 3000 (1 / 10) 1000))
      as (l & _ & _ & Hrun).
    + split; simpl; [lia | lra].
    + rewrite Hrun in He. discriminate.
Qed.

(** C4, amended: there is no validation and no dedicated error, only what
    the library calls raise.  A non-positive sample count or a zero carrier
    amplitude still stops the script: [ZeroDivisionError] from [E_m / E_c]
    when [E_c = 0], [ValueError] from [linspace] for a negative count,
    [IndexError] from [t[1]] (the sampling interval of the spectral analysis)
    for [N = 0].  Negative amplitudes, angular frequencies and duration are
    not rejected: the script runs to its end on
    [E_m = -100], [E_c = -150], [omega_m = -200], [omega_c = -3000],
    [duration = -0.1], [samples = 1000]. *)
Theorem invalid_input_failures (p : Params) :
  ((samples p <= 0)%Z \/ E_c p = 0 -> raises (run p)) /\
  (E_c p = 0 -> run p = Raise ZeroDivisionError) /\
  (E_c p <> 0 -> (samples p < 0)%Z -> run p = Raise ValueError) /\
  (E_c p <> 0 -> samples p = 0%Z -> run p = Raise IndexError) /\
  (exists o,
     run (mkParams (-100) (-150) (-200) (-3000) (-1 / 10) 1000) = Ok o).
Proof.
  split; [|split; [|split; [|split]]].
  - intros [Hs | Hz].
    + destruct (Req_dec_T (E_c p) 0) as [Hz | Hc].
      * eexists. now apply run_zero_carrier.
      * destruct (Z_lt_le_dec (samples p) 0).
        -- eexists. now apply run_negative_samples.
        -- eexists. apply run_short_grid; [assumption | lia].
    + eexists. now apply run_zero_carrier.
  - apply run_zero_carrier.
  - apply run_negative_samples.
  - intros Hc Hs. apply run_short_grid; [assumption | lia].
  - destruct (run_completes
                (mkParams (-100) (-150) (-200) (-3000) (-1 / 10) 1000))
      as (l & _ & _ & Hrun).
    + split; simpl; [lia | lra].
    + eexists. exact Hrun.
Qed.

Lemma invalid_input_failures_witness :
  E_c (mkParams 100 150 200 3000 (1 / 10) 0) <> 0 /\
  run (mkParams 100 150 200 3000 (1 / 10) 0) = Raise IndexError.
Proof.
  assert (Hc : E_c (mkParams 100 150 200 3000 (1 / 10) 0) <> 0)
    by (simpl; lra).
  split; [exact Hc|].
  destruct (invalid_input_failures (mkParams 100 150 200 3000 (1 / 10) 0))
    as (_ & _ & _ & H & _).
  apply H; [exact Hc | reflexivity].
Defined.

(** ** Two samples *)

(** C9: with [samples = 2] and valid parameters the script runs to its end;
    the time grid is exactly [[0; duration]], every signal and envelope has
    two entries, the transform has two bins, and the frequency axis and the
    magnitude spectrum have one entry each (the axis is [[0]]). *)
Theorem two_samples (p : Params) :
  valid p -> samples p = 2%Z ->
  exists o, run p = Ok o /\
    out_t o = [0; duration p] /\
    out_N o = 2%nat /\
    length (out_baseband_signal o) = 2%nat /\
    length (out_carrier_signal o) = 2%nat /\
    length (out_modulated_signal o) = 2%nat /\
    length (out_upper_envelope o) = 2%nat /\
    length (out_lower_envelope o) = 2%nat /\
    out_T o = duration p /\
    out_frequencies o = [0] /\
    length (out_modulated_fft o) = 2%nat /\
    length (out_modulated_magnitude o) = 1%nat.
Proof.
  intros Hv H2.
  pose proof (valid_completes p Hv) as Hc.
  destruct (run_completes p Hc) as (l & Ht & Hlen & Hrun).
  destruct (t_values p l (proj1 Hc) Ht) as [_ Hval].
  rewrite H2 in Hlen, Hval. simpl in Hlen.
  assert (Hl : l = [0; duration p]).
  { destruct l as [|a [|b [|c l]]]; simpl in Hlen; try discriminate.
    pose proof (Hval 0%nat ltac:(simpl; lia)) as H0.
    pose proof (Hval 1%nat ltac:(simpl; lia)) as H1.
    simpl in H0, H1. f_equal; [lra | f_equal; lra]. }
  exists (workspace p l). split; [exact Hrun|].
  subst l. unfold workspace.
  cbn [out_t out_N out_baseband_signal out_carrier_signal out_modulated_signal
       out_upper_envelope out_lower_envelope out_T out_frequencies
       out_modulated_fft out_modulated_magnitude].
  repeat split.
  - cbn [nth]. lra.
  - pose proof (frequencies_length 2 (nth 1 [0; duration p] 0 - nth 0 [0; duration p] 0)) as HL.
    pose proof (frequencies_nth 2 (nth 1 [0; duration p] 0 - nth 0 [0; duration p] 0) 0
                  ltac:(simpl; lia)) as H0.
    change (length [0; duration p]) with 2%nat.
    destruct (frequencies 2 _) as [|a [|b fs]]; simpl in HL; try discriminate.
    simpl in H0. rewrite H0. f_equal. unfold Rdiv. ring.
Qed.

Lemma two_samples_witness :
  valid (mkParams 100 150 200 3000 (1 / 10) 2) /\
  exists o, run (mkParams 100 150 200 3000 (1 / 10) 2) = Ok o /\
    out_t o = [0; 1 / 10] /\ out_frequencies o = [0].
Proof.
  assert (Hv : valid (mkParams 100 150 200 3000 (1 / 10) 2)).
  { unfold valid; simpl. repeat split; try lra; lia. }
  split; [exact Hv|].
  destruct (two_samples _ Hv eq_refl)
    as (o & Hrun & Ht & _ & _ & _ & _ & _ & _ & _ & Hf & _).
  exists o. auto.
Defined.

(** ** Spectral analyzer: the transform *)

Lemma Rsum_app (l1 l2 : list R) : Rsum (l1 ++ l2) = Rsum l1 + Rsum l2.
Proof. induction l1 as [|a l1 IH]; simpl; [lra | rewrite IH; lra]. Qed.

Lemma Rsum_map_ext {A : Type} (f g : A -> R) (l : list A) :
  (forall a, In a l -> f a = g a) -> Rsum (map f l) = Rsum (map g l).
Proof.
  intros H. f_equal. apply map_ext_in. exact H.
Qed.

Lemma Rsum_map_scal {A : Type} (c : R) (f : A -> R) (l : list A) :
  Rsum (map (fun a => c * f a) l) = c * Rsum (map f l).
Proof. induction l as [|a l IH]; simpl; [lra | rewrite IH; lra]. Qed.

Lemma Rsum_map_opp {A : Type} (f : A -> R) (l : list A) :
  Rsum (map (fun a => - f a) l) = - Rsum (map f l).
Proof. induction l as [|a l IH]; simpl; [lra | rewrite IH; lra]. Qed.

Lemma Rsum_map_plus {A : Type} (f g : A -> R) (l : list A) :
  Rsum (map (fun a => f a + g a) l) = Rsum (map f l) + Rsum (map g l).
Proof. induction l as [|a l IH]; simpl; [lra | rewrite IH; lra]. Qed.

Lemma Rsum_map_zero {A : Type} (l : list A) :
  Rsum (map (fun _ => 0) l) = 0.
Proof. induction l as [|a l IH]; simpl; [reflexivity | rewrite IH; lra]. Qed.

(** Exchange of two finite sums. *)
Lemma Rsum_swap {A B : Type} (f : A -> B -> R) (la : list A) (lb : list B) :
  Rsum (map (fun a => Rsum (map (fun b => f a b) lb)) la)
  = Rsum (map (fun b => Rsum (map (fun a => f a b) la)) lb).
Proof.
  induction la as [|a la IH]; simpl.
  - now rewrite Rsum_map_zero.
  - rewrite IH, <- Rsum_map_plus. reflexivity.
Qed.

Lemma Rsum_nth_seq (x : list R) :
  Rsum (map (fun n => nth n x 0) (seq 0 (length x))) = Rsum x.
Proof.
  f_equal. apply nth_ext with (d := 0) (d' := 0).
  - now rewrite length_map, length_seq.
  - intros n Hn. rewrite length_map, length_seq in Hn.
    rewrite map_nth_lt with (a := 0%nat) by now rewrite length_seq.
    now rewrite seq_nth.
Qed.

Lemma Csum_re {A : Type} (f : A -> complex) (l : list A) :
  re (Csum (map f l)) = Rsum (map (fun a => re (f a)) l).
Proof. induction l as [|a l IH]; simpl; [reflexivity | now rewrite IH]. Qed.

Lemma Csum_im {A : Type} (f : A -> complex) (l : list A) :
  im (Csum (map f l)) = Rsum (map (fun a => im (f a)) l).
Proof. induction l as [|a l IH]; simpl; [reflexivity | now rewrite IH]. Qed.

Lemma complex_eq (a b : complex) : re a = re b -> im a = im b -> a = b.
Proof. destruct a, b; simpl; intros -> ->; reflexivity. Qed.

Lemma nth_Cof (x : list R) (n : nat) :
  nth n (map Cof x) (mkC 0 0) = Cof (nth n x 0).
Proof. change (mkC 0 0) with (Cof 0). apply map_nth. Qed.

(** The forward transform the script calls computes the textbook sum. *)
Lemma dft_bin_DFT (x : list R) (k : nat) :
  dft_bin (-1) (map Cof x) k = DFT x k.
Proof.
  unfold dft_bin, DFT. rewrite length_map.
  apply complex_eq; cbn [re im].
  - rewrite Csum_re. apply Rsum_map_ext. intros n _.
    rewrite nth_Cof. cbn [Cmul Cof Cexpi re im].
    replace (-1 * (2 * PI * INR k * INR n / INR (length x)))
      with (- (2 * PI * INR k * INR n / INR (length x))) by lra.
    rewrite cos_neg. lra.
  - rewrite Csum_im, <- Rsum_map_opp. apply Rsum_map_ext. intros n _.
    rewrite nth_Cof. cbn [Cmul Cof Cexpi re im].
    replace (-1 * (2 * PI * INR k * INR n / INR (length x)))
      with (- (2 * PI * INR k * INR n / INR (length x))) by lra.
    rewrite sin_neg. lra.
Qed.

Lemma fft_DFT (x : list R) :
  x <> [] ->
  exists F, fft x = Ok F /\ length F = length x /\
    forall k, (k < length x)%nat -> nth k F (mkC 0 0) = DFT x k.
Proof.
  intros Hx. eexists. split; [now apply fft_ok|].
  split; [now rewrite length_map, length_seq|].
  intros k Hk.
  rewrite map_nth_lt with (a := 0%nat) by now rewrite length_seq.
  rewrite seq_nth by assumption. apply dft_bin_DFT.
Qed.

Lemma DFT_zero_bin (x : list R) : DFT x 0 = mkC (Rsum x) 0.
Proof.
  unfold DFT. apply complex_eq; cbn [re im].
  - rewrite <- (Rsum_nth_seq x). apply Rsum_map_ext. intros n _.
    replace (2 * PI * INR 0 * INR n / INR (length x)) with 0
      by (simpl; unfold Rdiv; ring).
    rewrite cos_0. lra.
  - rewrite <- Ropp_0. f_equal.
    rewrite <- (Rsum_map_zero (seq 0 (length x))).
    apply Rsum_map_ext. intros n _.
    replace (2 * PI * INR 0 * INR n / INR (length x)) with 0
      by (simpl; unfold Rdiv; ring).
    rewrite sin_0. lra.
Qed.

Lemma Cabs_real (a : R) : Cabs (mkC a 0) = Rabs a.
Proof.
  unfold Cabs; cbn [re im].
  replace (a * a + 0 * 0) with (Rsqr a) by (unfold Rsqr; ring).
  apply sqrt_Rsqr_abs.
Qed.

(** C2: on every completed run the transform has [N] bins,
    [modulated_fft[k] = DFT(modulated)[k]], the magnitude spectrum has
    [N // 2] entries and [magnitude[k] = (2 / N) * |DFT(modulated)[k]|] for
    every [k < N // 2]; the bin [k = 0] has the same factor:
    [magnitude[0] = (2 / N) * |sum_n modulated[n]|]. *)
Theorem magnitude_spectrum (p : Params) :
  completes p ->
  exists o, run p = Ok o /\
    length (out_modulated_fft o) = out_N o /\
    (forall k, (k < out_N o)%nat ->
       nth k (out_modulated_fft o) (mkC 0 0) = DFT (out_modulated_signal o) k) /\
    length (out_modulated_magnitude o) = (out_N o / 2)%nat /\
    (forall k, (k < out_N o / 2)%nat ->
       nth k (out_modulated_magnitude o) 0
       = 2 / INR (out_N o) * Cabs (DFT (out_modulated_signal o) k)) /\
    nth 0 (out_modulated_magnitude o) 0
    = 2 / INR (out_N o) * Rabs (Rsum (out_modulated_signal o)).
Proof.
  intros Hc.
  destruct (run_completes p Hc) as (l & Ht & Hlen & Hrun).
  destruct Hc as [Hs Hc].
  exists (workspace p l). split; [exact Hrun|].
  unfold workspace;
    cbn [out_modulated_fft out_N out_modulated_signal out_modulated_magnitude].
  set (m := modulated_signal p (baseband_signal p l) l).
  assert (Hm : length m = length l)
    by (apply modulated_signal_length, baseband_signal_length).
  assert (Hhalf : (length l / 2 <= length l)%nat).
  { pose proof (Nat.div_mod_eq (length l) 2). lia. }
  assert (Hone : (0 < length l / 2)%nat).
  { pose proof (Nat.div_mod_eq (length l) 2).
    pose proof (Nat.mod_upper_bound (length l) 2 ltac:(lia)). lia. }
  set (F := map (dft_bin (-1) (map Cof m)) (seq 0 (length m))).
  assert (HF : length F = length l)
    by (subst F; now rewrite length_map, length_seq).
  assert (HFk : forall k, (k < length l)%nat -> nth k F (mkC 0 0) = DFT m k).
  { intros k Hk. subst F.
    rewrite map_nth_lt with (a := 0%nat) by (rewrite length_seq; lia).
    rewrite seq_nth by lia. apply dft_bin_DFT. }
  assert (Hmag : forall k, (k < length l / 2)%nat ->
            nth k (map (fun v => 2 / INR (length l) * v)
                       (map Cabs (firstn (length l / 2) F))) 0
            = 2 / INR (length l) * Cabs (DFT m k)).
  { intros k Hk.
    rewrite map_nth_lt with (a := 0)
      by (rewrite length_map, length_firstn; lia).
    rewrite map_nth_lt with (a := mkC 0 0) by (rewrite length_firstn; lia).
    rewrite nth_firstn.
    destruct (Nat.ltb_spec k (length l / 2)); [|lia].
    rewrite HFk by lia. reflexivity. }
  split; [exact HF|]. split; [exact HFk|].
  split; [rewrite !length_map, length_firstn; lia|].
  split; [exact Hmag|].
  rewrite Hmag by exact Hone.
  now rewrite DFT_zero_bin, Cabs_real.
Qed.

Lemma magnitude_spectrum_witness :
  completes defaults /\
  exists o, run defaults = Ok o /\
    length (out_modulated_magnitude o) = 500%nat /\
    nth 0 (out_modulated_magnitude o) 0
    = 2 / INR (out_N o) * Rabs (Rsum (out_modulated_signal o)).
Proof.
  assert (Hc : completes defaults) by exact (valid_completes _ valid_defaults).
  split; [exact Hc|].
  destruct (magnitude_spectrum defaults Hc)
    as (o & Hrun & _ & _ & Hlen & _ & H0).
  exists o. split; [exact Hrun|]. split; [|exact H0].
  rewrite Hlen.
  destruct (run_completes _ Hc) as (l & _ & Hl & Hrun').
  rewrite Hrun' in Hrun. injection Hrun as <-.
  unfold workspace; cbn [out_N]. rewrite Hl. reflexivity.
Defined.

(** ** Round trip through the inverse transform *)

Lemma Rsum_map_const {A : Type} (c : R) (l : list A) :
  Rsum (map (fun _ => c) l) = INR (length l) * c.
Proof.
  induction l as [|a l IH]; [simpl; lra|].
  cbn [map Rsum fold_right length]. fold (Rsum (map (fun _ => c) l)).
  rewrite IH, S_INR. lra.
Qed.

Lemma Rsum_pick (f : nat -> R) (m : nat) (c : R) (s len : nat) :
  Rsum (map (fun n => f n * (if Nat.eq_dec n m then c else 0)) (seq s len))
  = if andb (s <=? m)%nat (m <? s + len)%nat then f m * c else 0.
Proof.
  revert s. induction len as [|len IH]; intros s.
  - simpl. destruct (Nat.leb_spec s m), (Nat.ltb_spec m (s + 0)); simpl; lra || lia.
  - cbn [seq map Rsum fold_right].
    fold (Rsum (map (fun n => f n * (if Nat.eq_dec n m then c else 0))
                    (seq (S s) len))).
    rewrite IH.
    destruct (Nat.eq_dec s m) as [-> | Hne].
    + destruct (Nat.leb_spec (S m) m); [lia|].
      destruct (Nat.leb_spec m m); [|lia].
      destruct (Nat.ltb_spec m (m + S len)); [|lia].
      simpl. lra.
    + destruct (Nat.leb_spec (S s) m), (Nat.leb_spec s m),
        (Nat.ltb_spec m (S s + len)), (Nat.ltb_spec m (s + S len));
        simpl; lra || lia.
Qed.

Lemma two_sin_cos (a b : R) : 2 * sin a * cos b = sin (a + b) + sin (a - b).
Proof. rewrite sin_plus, sin_minus. lra. Qed.

(** [2 sin(theta/2) * sum_{k<K} cos(k theta)] telescopes. *)
Lemma cos_sum_telescope (theta : R) (K : nat) :
  2 * sin (theta / 2) * Rsum (map (fun k => cos (INR k * theta)) (seq 0 K))
  = sin ((INR K - 1 / 2) * theta) + sin (theta / 2).
Proof.
  induction K as [|K IH].
  - simpl. replace ((0 - 1 / 2) * theta) with (- (theta / 2)) by lra.
    rewrite sin_neg. lra.
  - rewrite seq_S, map_app, Rsum_app, Rmult_plus_distr_l, IH.
    cbn [map Rsum fold_right plus]. rewrite Rplus_0_r, two_sin_cos.
    replace (theta / 2 - INR K * theta)
      with (- ((INR K - 1 / 2) * theta)) by lra.
    rewrite sin_neg, S_INR.
    replace ((INR K + 1 - 1 / 2) * theta) with (theta / 2 + INR K * theta)
      by lra.
    lra.
Qed.

Lemma sin_shift (x : R) (a b : nat) :
  sin (x + 2 * PI * (INR a - INR b)) = sin x.
Proof.
  replace (x + 2 * PI * (INR a - INR b))
    with ((x - 2 * INR b * PI) + 2 * INR a * PI) by lra.
  rewrite sin_period.
  rewrite <- (sin_period (x - 2 * INR b * PI) b).
  f_equal. lra.
Qed.

Lemma sin_fraction_pos (d n : R) :
  0 < d -> d < n -> 0 < sin (PI * d / n).
Proof.
  intros Hd Hn.
  assert (Hq : 0 < / n) by (apply Rinv_0_lt_compat; lra).
  assert (Hqn : n * / n = 1) by (apply Rinv_r; lra).
  pose proof PI_RGT_0 as Hpi.
  assert (Hfrac : 0 < d * / n < 1).
  { split; [now apply Rmult_lt_0_compat|].
    rewrite <- Hqn. apply Rmult_lt_compat_r; assumption. }
  apply sin_gt_0; unfold Rdiv; rewrite Rmult_assoc.
  - apply Rmult_lt_0_compat; lra.
  - rewrite <- (Rmult_1_r PI) at 2. apply Rmult_lt_compat_l; lra.
Qed.

Lemma sin_half_step_neq0 (n m len : nat) :
  (n < len)%nat -> (m < len)%nat -> n <> m ->
  sin (PI * (INR n - INR m) / INR len) <> 0.
Proof.
  intros Hn Hm Hne.
  assert (Hm0 : 0 <= INR m) by apply pos_INR.
  assert (Hn0 : 0 <= INR n) by apply pos_INR.
  assert (Hnl : INR n < INR len) by now apply lt_INR.
  assert (Hml : INR m < INR len) by now apply lt_INR.
  destruct (Nat.lt_total n m) as [Hlt | [Heq | Hgt]]; [| contradiction |].
  - apply lt_INR in Hlt.
    replace (PI * (INR n - INR m) / INR len)
      with (- (PI * (INR m - INR n) / INR len)) by (unfold Rdiv; ring).
    rewrite sin_neg.
    pose proof (sin_fraction_pos (INR m - INR n) (INR len)) as H.
    assert (0 < sin (PI * (INR m - INR n) / INR len)) by (apply H; lra).
    lra.
  - apply lt_INR in Hgt.
    pose proof (sin_fraction_pos (INR n - INR m) (INR len)) as H.
    assert (0 < sin (PI * (INR n - INR m) / INR len)) by (apply H; lra).
    lra.
Qed.

(** Orthogonality of the sampled cosines. *)
Lemma cos_sum_roots (len n m : nat) :
  (n < len)%nat -> (m < len)%nat ->
  Rsum (map (fun k => cos (2 * PI * INR k * (INR n - INR m) / INR len))
            (seq 0 len))
  = if Nat.eq_dec n m then INR len else 0.
Proof.
  intros Hn Hm.
  assert (Hlen : INR len <> 0) by (apply not_0_INR; lia).
  destruct (Nat.eq_dec n m) as [-> | Hne].
  - rewrite (Rsum_map_ext _ (fun _ => 1)).
    + rewrite Rsum_map_const, length_seq. lra.
    + intros k _. rewrite Rminus_diag.
      replace (2 * PI * INR k * 0 / INR len) with 0 by (unfold Rdiv; ring).
      apply cos_0.
  - set (theta := 2 * PI * (INR n - INR m) / INR len).
    rewrite (Rsum_map_ext _ (fun k => cos (INR k * theta))).
    + pose proof (cos_sum_telescope theta len) as Htel.
      replace ((INR len - 1 / 2) * theta)
        with (- (theta / 2) + 2 * PI * (INR n - INR m)) in Htel
        by (unfold theta; field; assumption).
      rewrite sin_shift, sin_neg in Htel.
      assert (Hs : sin (theta / 2) <> 0).
      { replace (theta / 2) with (PI * (INR n - INR m) / INR len)
          by (unfold theta; field; assumption).
        now apply sin_half_step_neq0. }
      assert (Hz : sin (theta / 2)
                   * Rsum (map (fun k => cos (INR k * theta)) (seq 0 len)) = 0)
        by lra.
      apply Rmult_integral in Hz. destruct Hz; [contradiction | assumption].
    + intros k _. f_equal. unfold theta, Rdiv. ring.
Qed.

Lemma ifft_ok (X : list complex) :
  X <> [] ->
  ifft X = Ok (map (fun m => Cscal (1 / INR (length X)) (dft_bin 1 X m))
                   (seq 0 (length X))).
Proof. destruct X; [congruence | reflexivity]. Qed.

Lemma re_bin_product (x : list R) (k m : nat) :
  re (Cmul (DFT x k) (Cexpi (1 * (2 * PI * INR m * INR k / INR (length x)))))
  = Rsum (map (fun n => nth n x 0
                        * cos (2 * PI * INR k * (INR n - INR m) / INR (length x)))
              (seq 0 (length x))).
Proof.
  cbn [Cmul Cexpi DFT re im].
  set (alpha := 1 * (2 * PI * INR m * INR k / INR (length x))).
  rewrite (Rsum_map_ext
             (fun n => nth n x 0
                       * cos (2 * PI * INR k * (INR n - INR m) / INR (length x)))
             (fun n => cos alpha
                       * (nth n x 0 * cos (2 * PI * INR k * INR n / INR (length x)))
                       + sin alpha
                         * (nth n x 0 * sin (2 * PI * INR k * INR n / INR (length x))))).
  - rewrite Rsum_map_plus, !Rsum_map_scal. lra.
  - intros n _.
    replace (2 * PI * INR k * (INR n - INR m) / INR (length x))
      with (2 * PI * INR k * INR n / INR (length x) - alpha)
      by (unfold alpha, Rdiv; ring).
    rewrite cos_minus. ring.
Qed.

(** The real part of the inverse transform of the forward transform, bin by
    bin. *)
Lemma re_inverse_of_forward (x : list R) (m : nat) :
  (m < length x)%nat ->
  Rsum (map (fun k =>
               re (Cmul (DFT x k)
                        (Cexpi (1 * (2 * PI * INR m * INR k / INR (length x))))))
            (seq 0 (length x)))
  = nth m x 0 * INR (length x).
Proof.
  intros Hm.
  rewrite (Rsum_map_ext _ _ _ (fun k _ => re_bin_product x k m)).
  rewrite (Rsum_swap
             (fun k n => nth n x 0
                         * cos (2 * PI * INR k * (INR n - INR m) / INR (length x)))).
  rewrite (Rsum_map_ext _
             (fun n => nth n x 0
                       * (if Nat.eq_dec n m then INR (length x) else 0))).
  - rewrite Rsum_pick.
    destruct (Nat.leb_spec 0 m); [|lia].
    destruct (Nat.ltb_spec m (0 + length x)); [|lia].
    reflexivity.
  - intros n Hn. apply in_seq in Hn.
    rewrite Rsum_map_scal, cos_sum_roots by lia. reflexivity.
Qed.

Lemma ifft_fft_re (x : list R) :
  x <> [] ->
  exists F X, fft x = Ok F /\ ifft F = Ok X /\
    length F = length x /\ length X = length x /\
    forall m, (m < length x)%nat -> re (nth m X (mkC 0 0)) = nth m x 0.
Proof.
  intros Hx.
  assert (Hpos : (0 < length x)%nat) by (destruct x; [congruence | simpl; lia]).
  set (F := map (dft_bin (-1) (map Cof x)) (seq 0 (length x))).
  assert (HF : length F = length x)
    by (subst F; now rewrite length_map, length_seq).
  assert (HFne : F <> []).
  { intros E. rewrite E in HF. simpl in HF. lia. }
  exists F. eexists.
  split; [now apply fft_ok|]. split; [now apply ifft_ok|].
  split; [exact HF|].
  split; [now rewrite length_map, length_seq|].
  intros m Hm.
  rewrite map_nth_lt with (a := 0%nat) by (rewrite length_seq; lia).
  rewrite seq_nth by lia. cbn [plus Cscal re].
  unfold dft_bin. rewrite Csum_re, HF.
  rewrite (Rsum_map_ext _
             (fun k => re (Cmul (DFT x k)
                                (Cexpi (1 * (2 * PI * INR m * INR k
                                             / INR (length x))))))).
  - rewrite re_inverse_of_forward by assumption.
    field. apply not_0_INR. lia.
  - intros k Hk. apply in_seq in Hk.
    subst F. rewrite map_nth_lt with (a := 0%nat) by (rewrite length_seq; lia).
    rewrite seq_nth by lia. cbn [plus]. now rewrite dft_bin_DFT.
Qed.

(** C7: for every non-empty real sequence [x] (the modulated signal in
    particular) the forward transform [fft(x)] exists, has [len(x)] bins
    (two-sided, un-normalized), its inverse transform exists, and the real
    part of [ifft(fft(x))[m]] is [x[m]] at every index, hence within any
    tolerance. *)
Theorem fft_round_trip (x : list R) :
  x <> [] ->
  exists F X, fft x = Ok F /\ ifft F = Ok X /\
    length F = length x /\ length X = length x /\
    forall m, (m < length x)%nat ->
      re (nth m X (mkC 0 0)) = nth m x 0 /\
      Rabs (re (nth m X (mkC 0 0)) - nth m x 0) <= 1 / 1000000.
Proof.
  intros Hx.
  destruct (ifft_fft_re x Hx) as (F & X & HF & HX & HlF & HlX & Hre).
  exists F, X. repeat (split; [assumption|]).
  intros m Hm. split; [now apply Hre|].
  rewrite Hre by assumption.
  rewrite Rminus_diag, Rabs_R0. lra.
Qed.

Lemma fft_round_trip_witness :
  [3; -1; 2] <> [] /\
  exists F X, fft [3; -1; 2] = Ok F /\ ifft F = Ok X /\
    re (nth 1 X (mkC 0 0)) = -1.
Proof.
  assert (Hx : [3; -1; 2] <> []) by discriminate.
  split; [exact Hx|].
  destruct (fft_round_trip [3; -1; 2] Hx) as (F & X & HF & HX & _ & _ & Hre).
  exists F, X. split; [exact HF|]. split; [exact HX|].
  apply (Hre 1%nat). simpl. lia.
Defined.

(** The same on the script's own transform. *)
Corollary run_round_trip (p : Params) :
  completes p ->
  exists o X, run p = Ok o /\ ifft (out_modulated_fft o) = Ok X /\
    length X = out_N o /\
    forall m, (m < out_N o)%nat ->
      re (nth m X (mkC 0 0)) = nth m (out_modulated_signal o) 0.
Proof.
  intros Hc.
  destruct (run_completes p Hc) as (l & Ht & Hlen & Hrun).
  destruct Hc as [Hs Hc].
  set (x := modulated_signal p (baseband_signal p l) l).
  assert (Hxl : length x = length l)
    by (apply modulated_signal_length, baseband_signal_length).
  assert (Hx : x <> []).
  { intros E. rewrite E in Hxl. simpl in Hxl. lia. }
  destruct (ifft_fft_re x Hx) as (F & X & HF & HX & _ & HlX & Hre).
  rewrite fft_ok in HF by assumption. injection HF as <-.
  exists (workspace p l), X. split; [exact Hrun|].
  unfold workspace; cbn [out_modulated_fft out_N out_modulated_signal].
  fold x. split; [exact HX|]. split; [congruence|].
  intros m Hm. apply Hre. lia.
Qed.

(** * Further properties of the script *)

(** ** Signal levels *)

Lemma Rabs_sin_le_1 (x : R) : Rabs (sin x) <= 1.
Proof. apply Rabs_le. pose proof (SIN_bound x). lra. Qed.

Lemma Rabs_scaled_sin (c x : R) : Rabs (c * sin x) <= Rabs c.
Proof.
  rewrite Rabs_mult. rewrite <- (Rmult_1_r (Rabs c)) at 2.
  apply Rmult_le_compat_l; [apply Rabs_pos | apply Rabs_sin_le_1].
Qed.

Lemma Rabs_le_between (a b : R) : Rabs a <= b -> - b <= a <= b.
Proof. unfold Rabs. destruct (Rcase_abs a); lra. Qed.

(** X1: on every completed run, whatever the signs of the parameters,
    [|baseband[i]| <= |E_m|], [|carrier[i]| <= |E_c|] and
    [|modulated[i]| <= |E_c| + |E_m|] at every index. *)
Theorem signals_bounded (p : Params) :
  completes p ->
  exists o, run p = Ok o /\
    length (out_carrier_signal o) = out_N o /\
    forall i, (i < out_N o)%nat ->
      Rabs (nth i (out_baseband_signal o) 0) <= Rabs (E_m p) /\
      Rabs (nth i (out_carrier_signal o) 0) <= Rabs (E_c p) /\
      Rabs (nth i (out_modulated_signal o) 0) <= Rabs (E_c p) + Rabs (E_m p).
Proof.
  intros Hc.
  destruct (run_completes p Hc) as (l & _ & Hlen & Hrun).
  exists (workspace p l). split; [exact Hrun|]. simpl.
  split; [apply carrier_signal_length|].
  intros i Hi.
  rewrite modulated_signal_nth by auto using baseband_signal_length.
  rewrite baseband_signal_nth, carrier_signal_nth by assumption.
  pose proof (Rabs_scaled_sin (E_m p) (omega_m p * nth i l 0)) as Hb.
  split; [exact Hb|]. split; [apply Rabs_scaled_sin|].
  rewrite Rabs_mult.
  pose proof (Rabs_sin_le_1 (omega_c p * nth i l 0)) as Hs.
  pose proof (Rabs_pos (sin (omega_c p * nth i l 0))) as Hs0.
  pose proof (Rabs_triang (E_c p) (E_m p * sin (omega_m p * nth i l 0))) as Htri.
  pose proof (Rabs_pos (E_c p + E_m p * sin (omega_m p * nth i l 0))) as Hu0.
  nra.
Qed.

Lemma signals_bounded_witness :
  completes (mkParams (-100) (-150) 200 3000 (1 / 10) 1000) /\
  exists o, run (mkParams (-100) (-150) 200 3000 (1 / 10) 1000) = Ok o /\
    Rabs (nth 3 (out_modulated_signal o) 0) <= 250.
Proof.
  assert (Hc : completes (mkParams (-100) (-150) 200 3000 (1 / 10) 1000)).
  { split; simpl; [lia | lra]. }
  split; [exact Hc|].
  destruct (signals_bounded _ Hc) as (o & Hrun & _ & Hi).
  exists o. split; [exact Hrun|].
  destruct (run_inv _ _ Hrun) as (l & Ht & _ & _ & Ho).
  destruct (t_values _ l (proj1 Hc) Ht) as [Hlen _].
  assert (H3 : (3 < out_N o)%nat).
  { rewrite Ho. simpl out_N. rewrite Hlen. simpl. lia. }
  destruct (Hi 3%nat H3) as (_ & _ & Hm).
  simpl in Hm.
  rewrite (Rabs_left (-150)), (Rabs_left (-100)) in Hm by lra. lra.
Defined.

(** X2: on every completed run the modulated signal stays inside the band
    the envelopes span even when they cross (over-modulation, negative
    amplitudes): [|modulated[i]| <= |upper[i]| = |lower[i]|], and
    [E_c - |E_m| <= upper[i] <= E_c + |E_m|]. *)
Theorem envelope_band (p : Params) :
  completes p ->
  exists o, run p = Ok o /\
    forall i, (i < out_N o)%nat ->
      Rabs (nth i (out_modulated_signal o) 0)
      <= Rabs (nth i (out_upper_envelope o) 0) /\
      Rabs (nth i (out_lower_envelope o) 0)
      = Rabs (nth i (out_upper_envelope o) 0) /\
      E_c p - Rabs (E_m p) <= nth i (out_upper_envelope o) 0 /\
      nth i (out_upper_envelope o) 0 <= E_c p + Rabs (E_m p).
Proof.
  intros Hc.
  destruct (run_completes p Hc) as (l & _ & Hlen & Hrun).
  exists (workspace p l). split; [exact Hrun|]. simpl.
  intros i Hi.
  assert (Hb : (i < length (baseband_signal p l))%nat)
    by now rewrite baseband_signal_length.
  rewrite lower_envelope_nth, upper_envelope_nth by assumption.
  rewrite modulated_signal_nth by auto using baseband_signal_length.
  rewrite baseband_signal_nth by assumption.
  pose proof (Rabs_scaled_sin (E_m p) (omega_m p * nth i l 0)) as Hm.
  apply Rabs_le_between in Hm.
  split; [|split; [apply Rabs_Ropp | lra]].
  rewrite Rabs_mult. rewrite <- Rmult_1_r.
  apply Rmult_le_compat_l; [apply Rabs_pos | apply Rabs_sin_le_1].
Qed.

Lemma envelope_band_witness :
  completes (mkParams 300 150 200 3000 (1 / 10) 1000) /\
  exists o, run (mkParams 300 150 200 3000 (1 / 10) 1000) = Ok o /\
    Rabs (nth 5 (out_modulated_signal o) 0)
    <= Rabs (nth 5 (out_upper_envelope o) 0).
Proof.
  assert (Hc : completes (mkParams 300 150 200 3000 (1 / 10) 1000)).
  { split; simpl; [lia | lra]. }
  split; [exact Hc|].
  destruct (envelope_band _ Hc) as (o & Hrun & Hi).
  exists o. split; [exact Hrun|].
  destruct (run_inv _ _ Hrun) as (l & Ht & _ & _ & Ho).
  destruct (t_values _ l (proj1 Hc) Ht) as [Hlen _].
  apply (Hi 5%nat). rewrite Ho. simpl out_N. rewrite Hlen. simpl. lia.
Defined.

(** ** The modulation index and the sidebands *)

(** X3: on every completed run the modulated signal is the carrier scaled by
    [1 + m sin(omega_m t)], with [m] the script's [modulation_index]:
    [modulated[i] = (1 + modulation_index * sin(omega_m * t[i])) * carrier[i]]. *)
Theorem modulated_from_carrier (p : Params) :
  completes p ->
  exists o, run p = Ok o /\
    forall i, (i < out_N o)%nat ->
      nth i (out_modulated_signal o) 0
      = (1 + out_modulation_index o * sin (omega_m p * nth i (out_t o) 0))
        * nth i (out_carrier_signal o) 0.
Proof.
  intros Hc.
  destruct (run_completes p Hc) as (l & _ & Hlen & Hrun).
  exists (workspace p l). split; [exact Hrun|]. simpl.
  intros i Hi.
  rewrite modulated_signal_nth by auto using baseband_signal_length.
  rewrite baseband_signal_nth, carrier_signal_nth by assumption.
  field. exact (proj2 Hc).
Qed.

Lemma modulated_from_carrier_witness :
  completes defaults /\
  exists o, run defaults = Ok o /\
    nth 1 (out_modulated_signal o) 0
    = (1 + out_modulation_index o * sin (200 * nth 1 (out_t o) 0))
      * nth 1 (out_carrier_signal o) 0.
Proof.
  assert (Hc : completes defaults) by exact (valid_completes _ valid_defaults).
  split; [exact Hc|].
  destruct (modulated_from_carrier defaults Hc) as (o & Hrun & Hi).
  exists o. split; [exact Hrun|].
  apply (Hi 1%nat).
  destruct (run_inv _ _ Hrun) as (l & _ & Hl & _ & ->). simpl. lia.
Defined.

Lemma sin_sin_product (a b : R) :
  sin a * sin b = (cos (b - a) - cos (b + a)) / 2.
Proof. rewrite cos_minus, cos_plus. lra. Qed.

(** X4: on every completed run the modulated signal is the carrier plus two
    cosines of amplitude [E_m / 2] at the two marker frequencies of the
    spectrum plot, [f_c - f_m] and [f_c + f_m]:
    [modulated[i] = carrier[i] + (E_m/2) cos(2 pi (f_c - f_m) t[i])
                               - (E_m/2) cos(2 pi (f_c + f_m) t[i])];
    the markers are [(omega_c -/+ omega_m) / (2 pi)]. *)
Theorem sideband_decomposition (p : Params) :
  completes p ->
  exists o, run p = Ok o /\
    lower_sideband o = (omega_c p - omega_m p) / (2 * PI) /\
    upper_sideband o = (omega_c p + omega_m p) / (2 * PI) /\
    forall i, (i < out_N o)%nat ->
      nth i (out_modulated_signal o) 0
      = nth i (out_carrier_signal o) 0
        + E_m p / 2 * cos (2 * PI * lower_sideband o * nth i (out_t o) 0)
        - E_m p / 2 * cos (2 * PI * upper_sideband o * nth i (out_t o) 0).
Proof.
  intros Hc.
  destruct (run_completes p Hc) as (l & _ & Hlen & Hrun).
  exists (workspace p l). split; [exact Hrun|].
  unfold lower_sideband, upper_sideband. simpl.
  pose proof two_PI_neq0 as Hpi.
  split; [field; lra|]. split; [field; lra|].
  intros i Hi.
  rewrite modulated_signal_nth by auto using baseband_signal_length.
  rewrite baseband_signal_nth, carrier_signal_nth by assumption.
  replace (2 * PI * (omega_c p / (2 * PI) - omega_m p / (2 * PI)) * nth i l 0)
    with (omega_c p * nth i l 0 - omega_m p * nth i l 0) by (field; lra).
  replace (2 * PI * (omega_c p / (2 * PI) + omega_m p / (2 * PI)) * nth i l 0)
    with (omega_c p * nth i l 0 + omega_m p * nth i l 0) by (field; lra).
  pose proof (sin_sin_product (omega_m p * nth i l 0) (omega_c p * nth i l 0)).
  nra.
Qed.

Lemma sideband_decomposition_witness :
  completes defaults /\
  exists o, run defaults = Ok o /\
    lower_sideband o = 2800 / (2 * PI) /\
    upper_sideband o = 3200 / (2 * PI).
Proof.
  assert (Hc : completes defaults) by exact (valid_completes _ valid_defaults).
  split; [exact Hc|].
  destruct (sideband_decomposition defaults Hc) as (o & Hrun & Hl & Hu & _).
  exists o. split; [exact Hrun|].
  rewrite Hl, Hu. simpl. split; f_equal; lra.
Defined.

(** ** The first sample and short grids *)

(** X5: every completed run starts at the origin: [t[0] = 0], the baseband,
    carrier and modulated signals are all 0 at index 0, and the envelopes
    start at [E_c] and [-E_c]. *)
Theorem first_sample (p : Params) :
  completes p ->
  exists o, run p = Ok o /\ (0 < out_N o)%nat /\
    nth 0 (out_t o) 0 = 0 /\
    nth 0 (out_baseband_signal o) 0 = 0 /\
    nth 0 (out_carrier_signal o) 0 = 0 /\
    nth 0 (out_modulated_signal o) 0 = 0 /\
    nth 0 (out_upper_envelope o) 0 = E_c p /\
    nth 0 (out_lower_envelope o) 0 = - E_c p.
Proof.
  intros Hc.
  destruct (run_completes p Hc) as (l & Ht & Hlen & Hrun).
  destruct (t_values p l (proj1 Hc) Ht) as [_ Hval].
  destruct Hc as [Hs Hc].
  assert (H0 : (0 < length l)%nat) by lia.
  assert (Ht0 : nth 0 l 0 = 0).
  { rewrite Hval by assumption. simpl. unfold Rdiv. ring. }
  exists (workspace p l). split; [exact Hrun|]. simpl.
  assert (Hb : (0 < length (baseband_signal p l))%nat)
    by now rewrite baseband_signal_length.
  rewrite lower_envelope_nth, upper_envelope_nth by assumption.
  rewrite modulated_signal_nth by auto using baseband_signal_length.
  rewrite baseband_signal_nth, carrier_signal_nth by assumption.
  rewrite Ht0, !Rmult_0_r, sin_0.
  repeat split; try assumption; lra.
Qed.

Lemma first_sample_witness :
  completes defaults /\
  exists o, run defaults = Ok o /\
    nth 0 (out_upper_envelope o) 0 = 150 /\
    nth 0 (out_modulated_signal o) 0 = 0.
Proof.
  assert (Hc : completes defaults) by exact (valid_completes _ valid_defaults).
  split; [exact Hc|].
  destruct (first_sample defaults Hc)
    as (o & Hrun & _ & _ & _ & _ & Hm & Hu & _).
  exists o. auto.
Defined.

Lemma linspace_zero (start stop : R) : linspace start stop 0 = Ok [].
Proof. reflexivity. Qed.

Lemma linspace_one (start stop : R) : linspace start stop 1 = Ok [start].
Proof.
  unfold linspace. simpl. f_equal. f_equal. lra.
Qed.

(** X6: with one sample the synthesis still goes through, on a time grid
    that is [[0]] whatever [duration] is: the three signals are [[0]] and the
    envelopes [[E_c]] and [[-E_c]]; the script then stops with [IndexError]
    at [T = t[1] - t[0]].  With zero samples every sequence is empty and the
    script stops at the same place. *)
Theorem short_grids (p : Params) :
  E_c p <> 0 ->
  (samples p = 1%Z ->
     t p = Ok [0] /\
     baseband_signal p [0] = [0] /\
     carrier_signal p [0] = [0] /\
     modulated_signal p (baseband_signal p [0]) [0] = [0] /\
     upper_envelope p (baseband_signal p [0]) = [E_c p] /\
     lower_envelope p (baseband_signal p [0]) = [- E_c p] /\
     T [0] = Raise IndexError /\
     run p = Raise IndexError) /\
  (samples p = 0%Z ->
     t p = Ok [] /\
     modulated_signal p (baseband_signal p []) [] = [] /\
     T [] = Raise IndexError /\
     run p = Raise IndexError).
Proof.
  intros Hc. split; intros Hs.
  - assert (Hb : baseband_signal p [0] = [0]).
    { unfold baseband_signal. simpl. rewrite Rmult_0_r, sin_0, Rmult_0_r.
      reflexivity. }
    split; [unfold t; rewrite Hs; apply linspace_one|].
    split; [exact Hb|].
    split.
    { unfold carrier_signal. simpl. rewrite Rmult_0_r, sin_0, Rmult_0_r.
      reflexivity. }
    rewrite Hb. unfold modulated_signal, upper_envelope, lower_envelope. simpl.
    rewrite Rmult_0_r, sin_0, Rmult_0_r, Rplus_0_r.
    repeat split. apply run_short_grid; [assumption | lia].
  - split; [unfold t; rewrite Hs; apply linspace_zero|].
    repeat split. apply run_short_grid; [assumption | lia].
Qed.

Lemma short_grids_witness :
  E_c (mkParams 100 150 200 3000 (1 / 10) 1) <> 0 /\
  t (mkParams 100 150 200 3000 (1 / 10) 1) = Ok [0] /\
  run (mkParams 100 150 200 3000 (1 / 10) 1) = Raise IndexError.
Proof.
  assert (Hc : E_c (mkParams 100 150 200 3000 (1 / 10) 1) <> 0)
    by (simpl; lra).
  split; [exact Hc|].
  destruct (short_grids _ Hc) as [H1 _].
  destruct (H1 eq_refl) as (Ht & _ & _ & _ & _ & _ & _ & Hrun).
  auto.
Defined.

(** ** The zoomed view *)

Lemma np_less_equal_length (a : list R) (v : R) :
  length (np_less_equal a v) = length a.
Proof. unfold np_less_equal. apply length_map. Qed.

Lemma getmask_ok (a : list R) (mask : list bool) :
  length mask = length a -> getmask a mask = Ok (compress mask a).
Proof.
  intros H. unfold getmask. now rewrite H, Nat.eqb_refl.
Qed.

Lemma getmask_mismatch (a : list R) (mask : list bool) :
  length mask <> length a -> getmask a mask = Raise IndexError.
Proof.
  intros H. unfold getmask.
  destruct (Nat.eqb_spec (length mask) (length a)); [contradiction | reflexivity].
Qed.

Lemma compress_all_false (k : nat) (a : list R) :
  compress (repeat false k) a = [].
Proof.
  revert a. induction k as [|k IH]; intros [|x a]; simpl; auto.
Qed.

Lemma compress_prefix (c k : nat) (a : list R) :
  compress (repeat true c ++ repeat false k) a = firstn c a.
Proof.
  revert a. induction c as [|c IH]; intros a.
  - simpl. apply compress_all_false.
  - destruct a as [|x a]; [reflexivity|]. simpl. f_equal. apply IH.
Qed.

(** When the entries not above [z] are closed under going to a smaller
    index, the mask [l <= z] is a run of [true] followed by [false]. *)
Lemma np_less_equal_prefix (l : list R) (z : R) :
  (forall i j, (i < j < length l)%nat -> nth j l 0 <= z -> nth i l 0 <= z) ->
  exists c, (c <= length l)%nat /\
    np_less_equal l z = repeat true c ++ repeat false (length l - c) /\
    forall i, (i < length l)%nat -> ((i < c)%nat <-> nth i l 0 <= z).
Proof.
  induction l as [|x l IH]; intros H.
  - exists 0%nat. simpl. split; [lia|]. split; [reflexivity|]. intros; lia.
  - destruct IH as (c & Hc & Hmask & Hiff).
    { intros i j Hij Hj. apply (H (S i) (S j)); [simpl; lia | exact Hj]. }
    unfold np_less_equal in *. cbn [map length].
    destruct (Rle_dec x z) as [Hx | Hx].
    + exists (S c). split; [lia|]. split.
      * cbn [repeat app]. rewrite Hmask.
        replace (S (length l) - S c)%nat with (length l - c)%nat by lia.
        reflexivity.
      * intros [|i] Hi; cbn [nth].
        -- split; [intros _; exact Hx | lia].
        -- rewrite <- Hiff by lia. lia.
    + assert (Hall : forall i, (i < length l)%nat -> ~ nth i l 0 <= z).
      { intros i Hi Hle. apply Hx.
        apply (H 0%nat (S i)); [simpl; lia | exact Hle]. }
      assert (Hc0 : c = 0%nat).
      { destruct c as [|c]; [reflexivity|]. exfalso.
        apply (Hall 0%nat); [lia|]. apply Hiff; lia. }
      subst c. exists 0%nat. split; [lia|]. split.
      * rewrite Hmask. cbn [repeat app].
        rewrite !Nat.sub_0_r. reflexivity.
      * intros [|i] Hi; cbn [nth].
        -- split; [lia | intros Hle; contradiction].
        -- split; [lia | intros Hle; exfalso; apply (Hall i); [lia | exact Hle]].
Qed.

(** Every grid [np.linspace(0, duration, samples)] returns has that closure
    for the bound [zoom_duration]. *)
Lemma t_zoom_closed (p : Params) (l : list R) :
  t p = Ok l ->
  forall i j, (i < j < length l)%nat ->
    nth j l 0 <= zoom_duration -> nth i l 0 <= zoom_duration.
Proof.
  intros Ht i j Hij Hj.
  destruct (Z_lt_le_dec (samples p) 2) as [Hs | Hs].
  - exfalso. unfold t in Ht.
    destruct (Z_lt_le_dec (samples p) 0) as [Hn | Hn].
    + rewrite linspace_negative in Ht by assumption. discriminate.
    + destruct (linspace_short 0 (duration p) (samples p)) as (l' & Hl' & Hlen);
        [lia|].
      rewrite Hl' in Ht. injection Ht as ->. lia.
  - destruct (t_values p l Hs Ht) as [Hlen Hval].
    assert (H2 : IZR 2 <= IZR (samples p)) by now apply IZR_le.
    assert (Hq : 0 < / (IZR (samples p) - 1))
      by (apply Rinv_0_lt_compat; lra).
    assert (Hi0 : 0 <= INR i) by apply pos_INR.
    assert (Hlt : INR i < INR j) by (apply lt_INR; lia).
    rewrite Hval in * by lia. unfold zoom_duration, Rdiv in *.
    destruct (Rle_dec 0 (duration p)) as [Hd | Hd].
    + apply Rle_trans with (2 := Hj).
      apply Rmult_le_compat_r; [lra|].
      apply Rmult_le_compat_l; lra.
    + assert (duration p * INR i * / (IZR (samples p) - 1) <= 0); [|lra].
      assert (0 <= (- duration p) * INR i * / (IZR (samples p) - 1)); [|lra].
      apply Rmult_le_pos; [apply Rmult_le_pos|]; lra.
Qed.

(** Every entry of the time grid lies between 0 and [duration]. *)
Lemma t_range (p : Params) (l : list R) :
  t p = Ok l ->
  forall i, (i < length l)%nat ->
    Rmin 0 (duration p) <= nth i l 0 <= Rmax 0 (duration p).
Proof.
  intros Ht i Hi.
  pose proof (Rmin_l 0 (duration p)) as Hmin0.
  pose proof (Rmin_r 0 (duration p)) as Hmind.
  pose proof (Rmax_l 0 (duration p)) as Hmax0.
  pose proof (Rmax_r 0 (duration p)) as Hmaxd.
  destruct (Z_lt_le_dec (samples p) 2) as [Hs | Hs].
  - unfold t in Ht.
    destruct (Z_lt_le_dec (samples p) 0) as [Hn | Hn].
    + rewrite linspace_negative in Ht by assumption. discriminate.
    + assert (Hs1 : samples p = 1%Z).
      { destruct (linspace_short 0 (duration p) (samples p)) as (l' & Hl' & Hlen);
          [lia|].
        rewrite Hl' in Ht. injection Ht as ->. lia. }
      rewrite Hs1, linspace_one in Ht. injection Ht as <-.
      destruct i as [|i]; [simpl; lra | simpl in Hi; lia].
  - destruct (t_values p l Hs Ht) as [Hlen Hval].
    assert (H2 : IZR 2 <= IZR (samples p)) by now apply IZR_le.
    assert (Hq : 0 < / (IZR (samples p) - 1))
      by (apply Rinv_0_lt_compat; lra).
    assert (Hi0 : 0 <= INR i) by apply pos_INR.
    assert (Hi1 : INR i <= IZR (samples p) - 1).
    { replace (IZR (samples p) - 1) with (INR (length l - 1)).
      - apply le_INR. lia.
      - rewrite Hlen, minus_INR by lia.
        rewrite INR_IZR_INZ, Z2Nat.id by lia. simpl. lra. }
    assert (Hf : 0 <= INR i * / (IZR (samples p) - 1) <= 1).
    { split; [apply Rmult_le_pos; lra|].
      apply Rmult_le_reg_r with (r := IZR (samples p) - 1); [lra|].
      rewrite Rmult_assoc, Rinv_l by lra. lra. }
    rewrite Hval by assumption. unfold Rdiv. rewrite Rmult_assoc.
    set (f := INR i * / (IZR (samples p) - 1)) in *.
    destruct (Rle_dec 0 (duration p)); split; nra.
Qed.

Lemma zoomed_view_ok (p : Params) (l : list R) :
  zoomed_view p l
  = Ok (mkZoomed (to_ms (compress (zoom_mask l) l))
                 (compress (zoom_mask l) (baseband_signal p l))
                 (compress (zoom_mask l) (carrier_signal p l))
                 (compress (zoom_mask l)
                    (modulated_signal p (baseband_signal p l) l))
                 (compress (zoom_mask l)
                    (upper_envelope p (baseband_signal p l)))
                 (compress (zoom_mask l)
                    (lower_envelope p (baseband_signal p l)))).
Proof.
  unfold zoomed_view, zoom_mask.
  rewrite !getmask_ok; [reflexivity | ..];
    rewrite np_less_equal_length;
    rewrite ?lower_envelope_length, ?upper_envelope_length,
      ?modulated_signal_length, ?carrier_signal_length,
      ?baseband_signal_length;
    auto using baseband_signal_length.
Qed.

(** X7: the boolean-mask selections of the zoomed figure never raise, and
    [t <= zoom_duration] always selects a leading run of the grid: there is
    a count [c] (at least 1 on a non-empty grid, and the whole grid when
    [duration <= 0.02]) with [i < c] exactly when [t[i] <= 0.02], and each
    zoomed sequence is the first [c] entries of the sequence it masks. *)
Theorem zoomed_view_prefix (p : Params) (l : list R) :
  t p = Ok l ->
  exists z c, zoomed_view p l = Ok z /\
    (c <= length l)%nat /\
    (l <> [] -> (1 <= c)%nat) /\
    (forall i, (i < length l)%nat ->
       ((i < c)%nat <-> nth i l 0 <= zoom_duration)) /\
    zoom_t_ms z = to_ms (firstn c l) /\
    zoom_baseband z = firstn c (baseband_signal p l) /\
    zoom_carrier z = firstn c (carrier_signal p l) /\
    zoom_modulated z
    = firstn c (modulated_signal p (baseband_signal p l) l) /\
    zoom_upper z = firstn c (upper_envelope p (baseband_signal p l)) /\
    zoom_lower z = firstn c (lower_envelope p (baseband_signal p l)) /\
    (duration p <= zoom_duration -> c = length l).
Proof.
  intros Ht.
  destruct (np_less_equal_prefix l zoom_duration (t_zoom_closed p l Ht))
    as (c & Hc & Hmask & Hiff).
  eexists. exists c. split; [apply zoomed_view_ok|].
  split; [exact Hc|].
  assert (Hwhole : duration p <= zoom_duration -> c = length l).
  { intros Hd.
    destruct (Nat.eq_dec (length l) 0) as [H0 | H0]; [lia|].
    assert (Hlast : (length l - 1 < c)%nat).
    { apply Hiff; [lia|].
      destruct (t_range p l Ht (length l - 1)%nat ltac:(lia)) as [_ Hup].
      apply Rle_trans with (1 := Hup).
      apply Rmax_lub; [unfold zoom_duration; lra | exact Hd]. }
    lia. }
  split.
  - intros Hne.
    assert (H0 : (0 < length l)%nat) by (destruct l; [congruence | simpl; lia]).
    apply (Hiff 0%nat H0).
    destruct (Z_lt_le_dec (samples p) 2) as [Hs | Hs].
    + unfold t in Ht.
      destruct (Z_lt_le_dec (samples p) 0) as [Hn | Hn].
      * rewrite linspace_negative in Ht by assumption. discriminate.
      * assert (Hs1 : samples p = 1%Z).
        { destruct (linspace_short 0 (duration p) (samples p)) as (l' & Hl' & Hlen);
            [lia|].
          rewrite Hl' in Ht. injection Ht as ->. lia. }
        rewrite Hs1, linspace_one in Ht. injection Ht as <-.
        simpl. unfold zoom_duration. lra.
    + destruct (t_values p l Hs Ht) as [_ Hval].
      rewrite Hval by assumption. simpl. unfold zoom_duration, Rdiv.
      rewrite Rmult_0_r, Rmult_0_l. lra.
  - split; [exact Hiff|].
    cbn [zoom_t_ms zoom_baseband zoom_carrier zoom_modulated zoom_upper
         zoom_lower].
    unfold zoom_mask. rewrite Hmask, !compress_prefix.
    repeat split. exact Hwhole.
Qed.

Lemma zoomed_view_prefix_witness :
  exists l z, t defaults = Ok l /\ zoomed_view defaults l = Ok z /\
    length (zoom_t_ms z) = 200%nat /\ length (zoom_modulated z) = 200%nat.
Proof.
  destruct (linspace_ok 0 (duration defaults) (samples defaults)) as (l & Hl & Hlen & _);
    [simpl; lia|].
  assert (Ht : t defaults = Ok l) by exact Hl.
  destruct (t_values defaults l ltac:(simpl; lia) Ht) as [_ Hval].
  destruct (zoomed_view_prefix defaults l Ht)
    as (z & c & Hz & Hc & _ & Hiff & Htz & _ & _ & Hmz & _ & _ & _).
  exists l, z. split; [exact Ht|]. split; [exact Hz|].
  change (Z.to_nat (samples defaults)) with 1000%nat in Hlen.
  assert (H199 : (199 < c)%nat).
  { apply Hiff; [lia|]. rewrite Hval by lia.
    unfold zoom_duration. simpl. lra. }
  assert (H200 : ~ (200 < c)%nat).
  { intros H. apply Hiff in H; [|lia]. rewrite Hval in H by lia.
    unfold zoom_duration in H. simpl in H. lra. }
  assert (Hc200 : c = 200%nat) by lia.
  rewrite Htz, Hmz. unfold to_ms.
  rewrite length_map, !length_firstn.
  rewrite modulated_signal_length by apply baseband_signal_length.
  lia.
Defined.

Lemma compress_le_In (l : list R) (z v : R) :
  In v (compress (np_less_equal l z) l) -> In v l /\ v <= z.
Proof.
  unfold np_less_equal.
  induction l as [|x l IH]; simpl; [tauto|].
  destruct (Rle_dec x z) as [Hx | Hx]; simpl.
  - intros [<- | Hin]; [auto | destruct (IH Hin); auto].
  - intros Hin. destruct (IH Hin); auto.
Qed.

(** X8: for [duration >= 0] every plotted time [t[i] * 1000] lies in
    [[0, 1000 * duration]] (the [xlim(0, 100)] of the first figure for
    [duration = 0.1]), and every time of the zoomed figure is one of them and
    lies in [[0, 20]], its [xlim]. *)
Theorem plotted_time_range (p : Params) (l : list R) :
  t p = Ok l -> 0 <= duration p ->
  exists z, zoomed_view p l = Ok z /\
    (forall v, In v (to_ms l) -> 0 <= v <= 1000 * duration p) /\
    (forall v, In v (zoom_t_ms z) -> In v (to_ms l) /\ 0 <= v <= 20).
Proof.
  intros Ht Hd.
  assert (Hrange : forall v, In v l -> 0 <= v <= duration p).
  { intros v Hin. apply (In_nth _ _ 0) in Hin. destruct Hin as (i & Hi & <-).
    pose proof (t_range p l Ht i Hi) as Hr.
    rewrite Rmin_left, Rmax_right in Hr by assumption. exact Hr. }
  eexists. split; [apply zoomed_view_ok|]. split.
  - intros v Hin. unfold to_ms in Hin. apply in_map_iff in Hin.
    destruct Hin as (u & <- & Hu). apply Hrange in Hu. lra.
  - cbn [zoom_t_ms]. intros v Hin. unfold to_ms in *.
    apply in_map_iff in Hin. destruct Hin as (u & <- & Hu).
    apply compress_le_In in Hu. destruct Hu as [Hu Hz].
    split; [apply in_map_iff; exists u; auto|].
    apply Hrange in Hu. unfold zoom_duration in Hz. lra.
Qed.

Lemma plotted_time_range_witness :
  exists l z, t defaults = Ok l /\ zoomed_view defaults l = Ok z /\
    (forall v, In v (to_ms l) -> 0 <= v <= 100) /\
    (forall v, In v (zoom_t_ms z) -> 0 <= v <= 20).
Proof.
  destruct (linspace_ok 0 (duration defaults) (samples defaults)) as (l & Hl & _);
    [simpl; lia|].
  assert (Ht : t defaults = Ok l) by exact Hl.
  assert (Hd : 0 <= duration defaults) by (simpl; lra).
  destruct (plotted_time_range defaults l Ht Hd) as (z & Hz & Hall & Hzoom).
  exists l, z. split; [exact Ht|]. split; [exact Hz|]. split.
  - intros v Hv. apply Hall in Hv. simpl in Hv. lra.
  - intros v Hv. now apply Hzoom in Hv.
Defined.

(** ** The frequency axis against the full [fftfreq] output *)

Lemma half_split (n : nat) :
  (n = 2 * (n / 2) + (if Nat.even n then 0 else 1))%nat.
Proof.
  pose proof (Nat.div_mod_eq n 2) as Hdm.
  destruct (Nat.even n) eqn:He.
  - apply Nat.even_spec in He. destruct He as [m ->].
    rewrite Nat.mul_comm, Nat.div_mul by lia. lia.
  - assert (Ho : Nat.odd n = true) by (unfold Nat.odd; now rewrite He).
    apply Nat.odd_spec in Ho. destruct Ho as [m ->].
    replace ((2 * m + 1) / 2)%nat with m; [lia|].
    symmetry. rewrite Nat.add_comm, Nat.mul_comm. 
    rewrite Nat.div_add by lia. reflexivity.
Qed.

(** Entry [k] of [fftfreq(n, d)]: the integer [k] in the first part,
    [k - n] in the second, over [n * d]. *)
Lemma fftfreq_nth (n k : nat) (d : R) :
  (k < n)%nat ->
  nth k (fftfreq (Z.of_nat n) d) 0
  = IZR (if (Z.of_nat k <? (Z.of_nat n - 1) / 2 + 1)%Z
         then Z.of_nat k else Z.of_nat k - Z.of_nat n)
    / (INR n * d).
Proof.
  intros Hk. unfold fftfreq.
  pose proof (Z.div_mod (Z.of_nat n) 2 ltac:(lia)) as H1.
  pose proof (Z.mod_pos_bound (Z.of_nat n) 2 ltac:(lia)) as H2.
  pose proof (Z.div_mod (Z.of_nat n - 1) 2 ltac:(lia)) as H3.
  pose proof (Z.mod_pos_bound (Z.of_nat n - 1) 2 ltac:(lia)) as H4.
  rewrite map_nth_lt with (a := 0)
    by (rewrite length_app, !arange_length; lia).
  rewrite <- INR_IZR_INZ.
  destruct (Z.ltb_spec (Z.of_nat k) ((Z.of_nat n - 1) / 2 + 1)) as [Hf | Hb].
  - rewrite app_nth1 by (rewrite arange_length; lia).
    rewrite arange_nth by lia. rewrite Z.add_0_l.
    unfold np_truediv, Rdiv. ring.
  - rewrite app_nth2 by (rewrite arange_length; lia).
    rewrite arange_length, arange_nth by lia.
    replace (- (Z.of_nat n / 2)
             + Z.of_nat (k - Z.to_nat ((Z.of_nat n - 1) / 2 + 1 - 0)))%Z
      with (Z.of_nat k - Z.of_nat n)%Z by lia.
    unfold np_truediv, Rdiv. ring.
Qed.

(** X9: on a run with [duration > 0] the sampling interval is
    [T = duration / (samples - 1)], neighbouring entries of the frequency
    axis are [1 / (N T)] apart, and every entry is below [1 / (2 T)], half
    the sampling rate. *)
Theorem frequency_axis_resolution (p : Params) :
  completes p -> 0 < duration p ->
  exists o, run p = Ok o /\
    out_T o = duration p / (IZR (samples p) - 1) /\
    0 < out_T o /\
    (forall k, (S k < out_N o / 2)%nat ->
       nth (S k) (out_frequencies o) 0 - nth k (out_frequencies o) 0
       = 1 / (INR (out_N o) * out_T o)) /\
    (forall k, (k < out_N o / 2)%nat ->
       nth k (out_frequencies o) 0 < 1 / (2 * out_T o)).
Proof.
  intros Hc Hd.
  destruct (run_completes p Hc) as (l & Ht & Hlen & Hrun).
  destruct Hc as [Hs Hc].
  assert (H2 : IZR 2 <= IZR (samples p)) by now apply IZR_le.
  pose proof (T_spacing p l Hs Ht) as HT.
  assert (HTpos : 0 < nth 1 l 0 - nth 0 l 0).
  { rewrite HT. apply Rdiv_lt_0_compat; lra. }
  assert (HN : 0 < INR (length l)) by (apply lt_0_INR; lia).
  exists (workspace p l). split; [exact Hrun|].
  unfold workspace; cbn [out_T out_frequencies out_N].
  split; [exact HT|]. split; [exact HTpos|].
  set (Ts := nth 1 l 0 - nth 0 l 0) in *.
  split.
  - intros k Hk. rewrite !frequencies_nth by lia.
    rewrite S_INR. field. lra.
  - intros k Hk. rewrite frequencies_nth by assumption.
    assert (Hk2 : 2 * INR k < INR (length l)).
    { pose proof (half_split (length l)) as Hh.
      replace 2 with (INR 2) by (simpl; lra).
      rewrite <- mult_INR. apply lt_INR.
      destruct (Nat.even (length l)); lia. }
    apply Rmult_lt_reg_r with (r := 2 * INR (length l) * Ts).
    + apply Rmult_lt_0_compat; lra.
    + replace (INR k / (INR (length l) * Ts) * (2 * INR (length l) * Ts))
        with (2 * INR k) by (field; lra).
      replace (1 / (2 * Ts) * (2 * INR (length l) * Ts))
        with (INR (length l)) by (field; lra).
      exact Hk2.
Qed.

Lemma frequency_axis_resolution_witness :
  completes defaults /\ 0 < duration defaults /\
  exists o, run defaults = Ok o /\ out_T o = 1 / 10 / 999.
Proof.
  assert (Hc : completes defaults) by exact (valid_completes _ valid_defaults).
  assert (Hd : 0 < duration defaults) by (simpl; lra).
  split; [exact Hc|]. split; [exact Hd|].
  destruct (frequency_axis_resolution defaults Hc Hd) as (o & Hrun & HT & _).
  exists o. split; [exact Hrun|]. rewrite HT. simpl. f_equal. lra.
Defined.

(** X10: what the slice [fftfreq(N, T)[:N//2]] leaves out, for
    [duration > 0].  For even [N] every entry left out is negative, so the
    axis holds exactly the non-negative frequencies.  For odd [N] the first
    entry left out, [(N//2) / (N T)], is positive (the highest non-negative
    frequency is dropped) and the ones after it are negative. *)
Theorem frequency_slice (p : Params) :
  completes p -> 0 < duration p ->
  exists o, run p = Ok o /\
    length (fftfreq (Z.of_nat (out_N o)) (out_T o)) = out_N o /\
    out_frequencies o
    = firstn (out_N o / 2) (fftfreq (Z.of_nat (out_N o)) (out_T o)) /\
    (Nat.even (out_N o) = true ->
     forall k, (out_N o / 2 <= k < out_N o)%nat ->
       nth k (fftfreq (Z.of_nat (out_N o)) (out_T o)) 0 < 0) /\
    (Nat.even (out_N o) = false ->
     nth (out_N o / 2) (fftfreq (Z.of_nat (out_N o)) (out_T o)) 0
     = INR (out_N o / 2) / (INR (out_N o) * out_T o) /\
     0 < nth (out_N o / 2) (fftfreq (Z.of_nat (out_N o)) (out_T o)) 0 /\
     forall k, (out_N o / 2 < k < out_N o)%nat ->
       nth k (fftfreq (Z.of_nat (out_N o)) (out_T o)) 0 < 0).
Proof.
  intros Hc Hd.
  destruct (run_completes p Hc) as (l & Ht & Hlen & Hrun).
  destruct Hc as [Hs Hc].
  assert (H2 : IZR 2 <= IZR (samples p)) by now apply IZR_le.
  assert (HTpos : 0 < nth 1 l 0 - nth 0 l 0).
  { rewrite (T_spacing p l Hs Ht). apply Rdiv_lt_0_compat; lra. }
  assert (HN : 0 < INR (length l)) by (apply lt_0_INR; lia).
  assert (Hden : 0 < / (INR (length l) * (nth 1 l 0 - nth 0 l 0))).
  { apply Rinv_0_lt_compat. now apply Rmult_lt_0_compat. }
  exists (workspace p l). split; [exact Hrun|].
  unfold workspace; cbn [out_T out_frequencies out_N].
  set (Ts := nth 1 l 0 - nth 0 l 0) in *.
  pose proof (half_split (length l)) as Hh.
  pose proof (Z.div_mod (Z.of_nat (length l) - 1) 2 ltac:(lia)) as H3.
  pose proof (Z.mod_pos_bound (Z.of_nat (length l) - 1) 2 ltac:(lia)) as H4.
  assert (Hneg : forall k, (k < length l)%nat ->
            ((Z.of_nat (length l) - 1) / 2 + 1 <= Z.of_nat k)%Z ->
            nth k (fftfreq (Z.of_nat (length l)) Ts) 0 < 0).
  { intros k Hk Hback. rewrite fftfreq_nth by assumption.
    destruct (Z.ltb_spec (Z.of_nat k) ((Z.of_nat (length l) - 1) / 2 + 1));
      [lia|].
    unfold Rdiv. rewrite <- (Rmult_0_l (/ (INR (length l) * Ts))).
    apply Rmult_lt_compat_r; [exact Hden|]. apply IZR_lt. lia. }
  split; [apply fftfreq_length|]. split; [reflexivity|]. split.
  - intros He k Hk. rewrite He in Hh. apply Hneg; lia.
  - intros He. rewrite He in Hh.
    assert (Hmid : nth (length l / 2) (fftfreq (Z.of_nat (length l)) Ts) 0
                   = INR (length l / 2) / (INR (length l) * Ts)).
    { rewrite fftfreq_nth by lia.
      destruct (Z.ltb_spec (Z.of_nat (length l / 2))
                  ((Z.of_nat (length l) - 1) / 2 + 1)); [|lia].
      now rewrite <- INR_IZR_INZ. }
    split; [exact Hmid|]. split.
    + rewrite Hmid. unfold Rdiv. apply Rmult_lt_0_compat; [|exact Hden].
      apply lt_0_INR. lia.
    + intros k Hk. apply Hneg; lia.
Qed.

Lemma frequency_slice_witness :
  completes (mkParams 100 150 200 3000 (1 / 10) 5) /\
  0 < duration (mkParams 100 150 200 3000 (1 / 10) 5) /\
  exists o, run (mkParams 100 150 200 3000 (1 / 10) 5) = Ok o /\
    out_N o = 5%nat /\
    0 < nth 2 (fftfreq 5 (out_T o)) 0.
Proof.
  assert (Hc : completes (mkParams 100 150 200 3000 (1 / 10) 5)).
  { split; simpl; [lia | lra]. }
  assert (Hd : 0 < duration (mkParams 100 150 200 3000 (1 / 10) 5))
    by (simpl; lra).
  split; [exact Hc|]. split; [exact Hd|].
  destruct (frequency_slice _ Hc Hd) as (o & Hrun & _ & _ & _ & Hodd).
  exists o. split; [exact Hrun|].
  assert (HN : out_N o = 5%nat).
  { destruct (run_inv _ _ Hrun) as (l & Ht & _ & _ & Ho).
    destruct (t_values _ l (proj1 Hc) Ht) as [Hlen _].
    rewrite Ho. exact Hlen. }
  split; [exact HN|].
  rewrite HN in Hodd. destruct (Hodd eq_refl) as (_ & Hpos & _).
  exact Hpos.
Defined.

(** ** The half of the transform the script discards *)

Lemma cos_turns_minus (n : nat) (x : R) : cos (2 * PI * INR n - x) = cos x.
Proof.
  replace (2 * PI * INR n - x) with (- x + 2 * INR n * PI) by lra.
  now rewrite cos_period, cos_neg.
Qed.

Lemma sin_turns_minus (n : nat) (x : R) : sin (2 * PI * INR n - x) = - sin x.
Proof.
  replace (2 * PI * INR n - x) with (- x + 2 * INR n * PI) by lra.
  now rewrite sin_period, sin_neg.
Qed.

(** For a real sequence, bin [N - k] is the complex conjugate of bin [k]. *)
Lemma DFT_mirror (x : list R) (k : nat) :
  (0 < k < length x)%nat ->
  re (DFT x (length x - k)) = re (DFT x k) /\
  im (DFT x (length x - k)) = - im (DFT x k).
Proof.
  intros Hk.
  assert (HN : INR (length x) <> 0) by (apply not_0_INR; lia).
  assert (Harg : forall n,
            2 * PI * INR (length x - k) * INR n / INR (length x)
            = 2 * PI * INR n - 2 * PI * INR k * INR n / INR (length x)).
  { intros n. rewrite minus_INR by lia. field. exact HN. }
  unfold DFT; cbn [re im]. split.
  - apply Rsum_map_ext. intros n _.
    now rewrite Harg, cos_turns_minus.
  - rewrite Ropp_involutive, <- Rsum_map_opp.
    apply Rsum_map_ext. intros n _.
    rewrite Harg, sin_turns_minus. lra.
Qed.

(** X11: on every completed run the bins the slice [[:N//2]] discards mirror
    the ones below them: for [0 < k < N], [modulated_fft[N - k]] is the
    complex conjugate of [modulated_fft[k]], so the two have the same
    magnitude. *)
Theorem discarded_half_mirrors (p : Params) :
  completes p ->
  exists o, run p = Ok o /\
    length (out_modulated_fft o) = out_N o /\
    forall k, (0 < k < out_N o)%nat ->
      re (nth (out_N o - k) (out_modulated_fft o) (mkC 0 0))
      = re (nth k (out_modulated_fft o) (mkC 0 0)) /\
      im (nth (out_N o - k) (out_modulated_fft o) (mkC 0 0))
      = - im (nth k (out_modulated_fft o) (mkC 0 0)) /\
      Cabs (nth (out_N o - k) (out_modulated_fft o) (mkC 0 0))
      = Cabs (nth k (out_modulated_fft o) (mkC 0 0)).
Proof.
  intros Hc.
  destruct (run_completes p Hc) as (l & Ht & Hlen & Hrun).
  exists (workspace p l). split; [exact Hrun|].
  unfold workspace; cbn [out_modulated_fft out_N].
  set (m := modulated_signal p (baseband_signal p l) l).
  assert (Hm : length m = length l)
    by (apply modulated_signal_length, baseband_signal_length).
  split; [now rewrite length_map, length_seq|].
  intros k Hk.
  rewrite !map_nth_lt with (a := 0%nat) by (rewrite length_seq; lia).
  rewrite !seq_nth by lia. cbn [plus]. rewrite !dft_bin_DFT.
  destruct (DFT_mirror m k ltac:(lia)) as [Hre Him].
  rewrite <- Hm.
  split; [exact Hre|]. split; [exact Him|].
  unfold Cabs. rewrite Hre, Him. f_equal. ring.
Qed.

Lemma discarded_half_mirrors_witness :
  completes defaults /\
  exists o, run defaults = Ok o /\
    Cabs (nth 952 (out_modulated_fft o) (mkC 0 0))
    = Cabs (nth 48 (out_modulated_fft o) (mkC 0 0)).
Proof.
  assert (Hc : completes defaults) by exact (valid_completes _ valid_defaults).
  split; [exact Hc|].
  destruct (discarded_half_mirrors defaults Hc) as (o & Hrun & _ & Hk).
  exists o. split; [exact Hrun|].
  assert (HN : out_N o = 1000%nat).
  { destruct (run_inv _ _ Hrun) as (l & Ht & _ & _ & Ho).
    destruct (t_values _ l (proj1 Hc) Ht) as [Hlen _].
    rewrite Ho. exact Hlen. }
  rewrite HN in Hk.
  destruct (Hk 48%nat ltac:(lia)) as (_ & _ & H). exact H.
Defined.

(** ** Size of the spectrum *)

Lemma Cabs_pos (a : complex) : 0 <= Cabs a.
Proof. apply sqrt_pos. Qed.

Lemma Cabs_sqr (a : complex) : Cabs a * Cabs a = re a * re a + im a * im a.
Proof. unfold Cabs. apply sqrt_sqrt. nra. Qed.

Lemma Cabs_triang (a b : complex) : Cabs (Cadd a b) <= Cabs a + Cabs b.
Proof.
  pose proof (Cabs_pos a) as Ha. pose proof (Cabs_pos b) as Hb.
  apply Rsqr_incr_0_var; [|lra].
  unfold Rsqr. rewrite Cabs_sqr. cbn [Cadd re im].
  pose proof (sqrt_cauchy (re a) (im a) (re b) (im b)) as Hcs.
  unfold Rsqr in Hcs. fold (Cabs a) (Cabs b) in Hcs.
  pose proof (Cabs_sqr a). pose proof (Cabs_sqr b). nra.
Qed.

Lemma Cabs_Csum {A : Type} (f : A -> complex) (l : list A) :
  Cabs (Csum (map f l)) <= Rsum (map (fun a => Cabs (f a)) l).
Proof.
  induction l as [|a l IH].
  - simpl. unfold Cabs; cbn [re im].
    replace (0 * 0 + 0 * 0) with 0 by ring. rewrite sqrt_0. lra.
  - cbn [map Csum Rsum fold_right].
    fold (Csum (map f l)). fold (Rsum (map (fun a => Cabs (f a)) l)).
    pose proof (Cabs_triang (f a) (Csum (map f l))). lra.
Qed.

Lemma Cabs_real_phase (x theta : R) :
  Cabs (Cmul (Cof x) (Cexpi theta)) = Rabs x.
Proof.
  unfold Cabs; cbn [Cmul Cof Cexpi re im].
  replace ((x * cos theta - 0 * sin theta) * (x * cos theta - 0 * sin theta)
           + (x * sin theta + 0 * cos theta) * (x * sin theta + 0 * cos theta))
    with (Rsqr x * (Rsqr (sin theta) + Rsqr (cos theta)))
    by (unfold Rsqr; ring).
  rewrite sin2_cos2, Rmult_1_r. apply sqrt_Rsqr_abs.
Qed.

Lemma Rsum_map_le {A : Type} (f : A -> R) (b : R) (l : list A) :
  (forall a, In a l -> f a <= b) -> Rsum (map f l) <= INR (length l) * b.
Proof.
  induction l as [|a l IH]; intros H.
  - simpl. lra.
  - cbn [map Rsum fold_right length]. fold (Rsum (map f l)).
    rewrite S_INR.
    assert (f a <= b) by (apply H; now left).
    assert (Rsum (map f l) <= INR (length l) * b)
      by (apply IH; intros; apply H; now right).
    lra.
Qed.

(** A bin of the transform is no larger than [N] times a bound on the
    samples. *)
Lemma dft_bin_bound (x : list R) (b : R) (k : nat) :
  (forall n, (n < length x)%nat -> Rabs (nth n x 0) <= b) ->
  Cabs (dft_bin (-1) (map Cof x) k) <= INR (length x) * b.
Proof.
  intros Hb. unfold dft_bin. rewrite length_map.
  eapply Rle_trans; [apply Cabs_Csum|].
  replace (INR (length x) * b) with (INR (length (seq 0 (length x))) * b)
    by now rewrite length_seq.
  apply Rsum_map_le. intros n Hn. apply in_seq in Hn.
  rewrite nth_Cof, Cabs_real_phase. apply Hb. lia.
Qed.

(** X12: on every completed run each entry of the magnitude spectrum lies
    between 0 and [2 (|E_c| + |E_m|)]. *)
Theorem magnitude_bounded (p : Params) :
  completes p ->
  exists o, run p = Ok o /\
    length (out_modulated_magnitude o) = (out_N o / 2)%nat /\
    forall k, (k < out_N o / 2)%nat ->
      0 <= nth k (out_modulated_magnitude o) 0
      <= 2 * (Rabs (E_c p) + Rabs (E_m p)).
Proof.
  intros Hc.
  destruct (run_completes p Hc) as (l & Ht & Hlen & Hrun).
  destruct Hc as [Hs Hc].
  exists (workspace p l). split; [exact Hrun|].
  unfold workspace; cbn [out_modulated_magnitude out_N].
  set (m := modulated_signal p (baseband_signal p l) l).
  assert (Hm : length m = length l)
    by (apply modulated_signal_length, baseband_signal_length).
  assert (Hhalf : (length l / 2 <= length l)%nat).
  { pose proof (Nat.div_mod_eq (length l) 2). lia. }
  assert (HN : 0 < INR (length l)) by (apply lt_0_INR; lia).
  set (B := Rabs (E_c p) + Rabs (E_m p)).
  assert (Hx : forall n, (n < length m)%nat -> Rabs (nth n m 0) <= B).
  { intros n Hn. subst m B.
    rewrite modulated_signal_nth by (auto using baseband_signal_length; lia).
    rewrite baseband_signal_nth by lia.
    rewrite Rabs_mult.
    pose proof (Rabs_sin_le_1 (omega_c p * nth n l 0)) as Hs1.
    pose proof (Rabs_pos (sin (omega_c p * nth n l 0))) as Hs0.
    pose proof (Rabs_scaled_sin (E_m p) (omega_m p * nth n l 0)) as Hbm.
    pose proof (Rabs_triang (E_c p) (E_m p * sin (omega_m p * nth n l 0))) as Htri.
    pose proof (Rabs_pos (E_c p + E_m p * sin (omega_m p * nth n l 0))) as Hu0.
    nra. }
  split; [rewrite !length_map, length_firstn, length_map, length_seq; lia|].
  intros k Hk.
  rewrite map_nth_lt with (a := 0)
    by (rewrite length_map, length_firstn, length_map, length_seq; lia).
  rewrite map_nth_lt with (a := mkC 0 0)
    by (rewrite length_firstn, length_map, length_seq; lia).
  rewrite nth_firstn.
  destruct (Nat.ltb_spec k (length l / 2)); [|lia].
  rewrite map_nth_lt with (a := 0%nat) by (rewrite length_seq; lia).
  rewrite seq_nth by lia. cbn [plus].
  pose proof (dft_bin_bound m B k Hx) as Hbin.
  pose proof (Cabs_pos (dft_bin (-1) (map Cof m) k)) as Hpos.
  rewrite Hm in Hbin.
  set (v := Cabs (dft_bin (-1) (map Cof m) k)) in *.
  assert (Hq : 0 < / INR (length l)) by now apply Rinv_0_lt_compat.
  unfold Rdiv. split.
  - apply Rmult_le_pos; [|exact Hpos]. apply Rmult_le_pos; lra.
  - apply Rmult_le_reg_r with (r := INR (length l)); [exact HN|].
    replace (2 * / INR (length l) * v * INR (length l)) with (2 * v)
      by (field; lra).
    lra.
Qed.

Lemma magnitude_bounded_witness :
  completes defaults /\
  exists o, run defaults = Ok o /\
    0 <= nth 48 (out_modulated_magnitude o) 0 <= 500.
Proof.
  assert (Hc : completes defaults) by exact (valid_completes _ valid_defaults).
  split; [exact Hc|].
  destruct (magnitude_bounded defaults Hc) as (o & Hrun & _ & Hk).
  exists o. split; [exact Hrun|].
  assert (HN : out_N o = 1000%nat).
  { destruct (run_inv _ _ Hrun) as (l & Ht & _ & _ & Ho).
    destruct (t_values _ l (proj1 Hc) Ht) as [Hlen _].
    rewrite Ho. exact Hlen. }
  rewrite HN in Hk.
  assert (H48 : (48 < 1000 / 2)%nat).
  { change (1000 / 2)%nat with 500%nat. lia. }
  pose proof (Hk 48%nat H48) as H. simpl E_c in H. simpl E_m in H.
  rewrite (Rabs_pos_eq 150), (Rabs_pos_eq 100) in H by lra. lra.
Defined.

(** ** Scaling both amplitudes *)

Lemma baseband_signal_scaled (p q : Params) (c : R) (l : list R) :
  E_m q = c * E_m p -> omega_m q = omega_m p ->
  baseband_signal q l = map (Rmult c) (baseband_signal p l).
Proof.
  intros Hm Hw. unfold baseband_signal. rewrite Hm, Hw, !map_map.
  apply map_ext. intros v. ring.
Qed.

Lemma modulated_signal_scaled (p q : Params) (c : R) (l : list R) :
  E_m q = c * E_m p -> E_c q = c * E_c p ->
  omega_m q = omega_m p -> omega_c q = omega_c p ->
  modulated_signal q (baseband_signal q l) l
  = map (Rmult c) (modulated_signal p (baseband_signal p l) l).
Proof.
  intros Hm Hc Hwm Hwc.
  apply nth_ext with (d := 0) (d' := 0).
  - rewrite length_map, !modulated_signal_length; auto using baseband_signal_length.
  - intros i Hi.
    rewrite modulated_signal_length in Hi by apply baseband_signal_length.
    rewrite map_nth_lt with (a := 0)
      by (rewrite modulated_signal_length; auto using baseband_signal_length).
    rewrite !modulated_signal_nth by auto using baseband_signal_length.
    rewrite !baseband_signal_nth by assumption.
    rewrite Hm, Hc, Hwm, Hwc. ring.
Qed.

Lemma dft_bin_scaled (c : R) (x : list R) (k : nat) :
  dft_bin (-1) (map Cof (map (Rmult c) x)) k
  = Cscal c (dft_bin (-1) (map Cof x) k).
Proof.
  unfold dft_bin. rewrite !length_map.
  apply complex_eq; cbn [Cscal re im].
  - rewrite !Csum_re, <- Rsum_map_scal. apply Rsum_map_ext.
    intros n Hn. apply in_seq in Hn.
    rewrite !nth_Cof, map_nth_lt with (a := 0) by lia.
    cbn [Cmul Cof re im]. ring.
  - rewrite !Csum_im, <- Rsum_map_scal. apply Rsum_map_ext.
    intros n Hn. apply in_seq in Hn.
    rewrite !nth_Cof, map_nth_lt with (a := 0) by lia.
    cbn [Cmul Cof re im]. ring.
Qed.

Lemma Cabs_Cscal (c : R) (a : complex) : Cabs (Cscal c a) = Rabs c * Cabs a.
Proof.
  unfold Cabs; cbn [Cscal re im].
  replace (c * re a * (c * re a) + c * im a * (c * im a))
    with (Rsqr c * (re a * re a + im a * im a)) by (unfold Rsqr; ring).
  rewrite sqrt_mult; [| apply Rle_0_sqr | nra].
  now rewrite sqrt_Rsqr_abs.
Qed.

(** X13: multiplying both amplitudes by a factor [c <> 0] leaves the time
    grid, the modulation index and the frequency axis as they were,
    multiplies every modulated sample by [c] and every entry of the
    magnitude spectrum by [|c|]. *)
Theorem amplitude_scaling (p : Params) (c : R) :
  completes p -> c <> 0 ->
  exists o o',
    run p = Ok o /\
    run (mkParams (c * E_m p) (c * E_c p) (omega_m p) (omega_c p)
                  (duration p) (samples p)) = Ok o' /\
    out_t o' = out_t o /\
    out_modulation_index o' = out_modulation_index o /\
    out_frequencies o' = out_frequencies o /\
    out_modulated_signal o' = map (Rmult c) (out_modulated_signal o) /\
    out_modulated_magnitude o'
    = map (Rmult (Rabs c)) (out_modulated_magnitude o).
Proof.
  intros Hc Hc0.
  set (q := mkParams (c * E_m p) (c * E_c p) (omega_m p) (omega_c p)
                     (duration p) (samples p)).
  destruct (run_completes p Hc) as (l & Ht & Hlen & Hrun).
  destruct Hc as [Hs Hc].
  assert (Hq : run q = Ok (workspace q l)).
  { apply run_grid; [| exact Ht | lia].
    subst q; simpl. now apply Rmult_integral_contrapositive_currified. }
  exists (workspace p l), (workspace q l).
  split; [exact Hrun|]. split; [exact Hq|].
  unfold workspace;
    cbn [out_t out_modulation_index out_frequencies out_modulated_signal
         out_modulated_magnitude].
  assert (Hmod : modulated_signal q (baseband_signal q l) l
                 = map (Rmult c) (modulated_signal p (baseband_signal p l) l))
    by now apply modulated_signal_scaled.
  split; [reflexivity|]. split; [subst q; simpl; now field|].
  split; [reflexivity|]. split; [exact Hmod|].
  rewrite Hmod, length_map.
  set (m := modulated_signal p (baseband_signal p l) l).
  rewrite (map_ext _ (fun k => Cscal c (dft_bin (-1) (map Cof m) k))
             (dft_bin_scaled c m)).
  rewrite <- (map_map (dft_bin (-1) (map Cof m)) (Cscal c)).
  rewrite firstn_map, !map_map.
  apply map_ext. intros z. rewrite Cabs_Cscal. ring.
Qed.

Lemma amplitude_scaling_witness :
  completes defaults /\ 2 <> 0 /\
  exists o o',
    run defaults = Ok o /\
    run (mkParams 200 300 200 3000 (1 / 10) 1000) = Ok o' /\
    out_modulation_index o' = out_modulation_index o /\
    out_modulated_magnitude o'
    = map (Rmult (Rabs 2)) (out_modulated_magnitude o).
Proof.
  assert (Hc : completes defaults) by exact (valid_completes _ valid_defaults).
  assert (H2 : 2 <> 0) by lra.
  split; [exact Hc|]. split; [exact H2|].
  destruct (amplitude_scaling defaults 2 Hc H2)
    as (o & o' & Hrun & Hrun' & _ & Hi & _ & _ & Hmag).
  exists o, o'. split; [exact Hrun|]. split.
  - rewrite <- Hrun'. simpl. do 2 f_equal; lra.
  - auto.
Defined.

(** ** Parameters outside the intended range *)

(** X14: a negative [duration] is accepted: the script completes, the time
    grid runs strictly downwards from 0 to [duration], the sampling interval
    [T] is negative, and the frequency axis is strictly decreasing with no
    positive entry. *)
Theorem negative_duration (p : Params) :
  completes p -> duration p < 0 ->
  exists o, run p = Ok o /\
    out_T o < 0 /\
    nth 0 (out_t o) 0 = 0 /\
    nth (out_N o - 1) (out_t o) 0 = duration p /\
    (forall i j, (i < j < out_N o)%nat ->
       nth j (out_t o) 0 < nth i (out_t o) 0) /\
    (forall k, (k < out_N o / 2)%nat -> nth k (out_frequencies o) 0 <= 0) /\
    (forall j k, (j < k < out_N o / 2)%nat ->
       nth k (out_frequencies o) 0 < nth j (out_frequencies o) 0).
Proof.
  intros Hc Hd.
  destruct (run_completes p Hc) as (l & Ht & Hlen & Hrun).
  destruct Hc as [Hs Hc].
  destruct (t_values p l Hs Ht) as [_ Hval].
  assert (H2 : IZR 2 <= IZR (samples p)) by now apply IZR_le.
  assert (Hq : 0 < / (IZR (samples p) - 1))
    by (apply Rinv_0_lt_compat; lra).
  pose proof (T_spacing p l Hs Ht) as HT.
  assert (HTneg : nth 1 l 0 - nth 0 l 0 < 0).
  { rewrite HT. unfold Rdiv. nra. }
  assert (HN : 0 < INR (length l)) by (apply lt_0_INR; lia).
  assert (Hden : / (INR (length l) * (nth 1 l 0 - nth 0 l 0)) < 0).
  { apply Rinv_lt_0_compat. nra. }
  exists (workspace p l). split; [exact Hrun|].
  unfold workspace; cbn [out_T out_t out_N out_frequencies].
  split; [exact HTneg|]. split; [|split; [|split; [|split]]].
  - rewrite Hval by lia. simpl. unfold Rdiv. ring.
  - rewrite Hval by lia. rewrite Hlen, minus_INR by lia.
    rewrite INR_IZR_INZ, Z2Nat.id by lia. simpl. field. lra.
  - intros i j Hij. rewrite !Hval by lia.
    assert (Hlt : INR i < INR j) by (apply lt_INR; lia).
    unfold Rdiv. apply Rmult_lt_compat_r; [exact Hq|]. nra.
  - intros k Hk. rewrite frequencies_nth by assumption.
    pose proof (pos_INR k). unfold Rdiv. nra.
  - intros j k Hjk. rewrite !frequencies_nth by lia.
    assert (Hlt : INR j < INR k) by (apply lt_INR; lia).
    unfold Rdiv. nra.
Qed.

Lemma negative_duration_witness :
  completes (mkParams 100 150 200 3000 (-1 / 10) 1000) /\
  duration (mkParams 100 150 200 3000 (-1 / 10) 1000) < 0 /\
  exists o, run (mkParams 100 150 200 3000 (-1 / 10) 1000) = Ok o /\
    out_T o < 0.
Proof.
  assert (Hc : completes (mkParams 100 150 200 3000 (-1 / 10) 1000)).
  { split; simpl; [lia | lra]. }
  assert (Hd : duration (mkParams 100 150 200 3000 (-1 / 10) 1000) < 0)
    by (simpl; lra).
  split; [exact Hc|]. split; [exact Hd|].
  destruct (negative_duration _ Hc Hd) as (o & Hrun & HT & _).
  exists o. auto.
Defined.

(** X15: with [E_m = 0] nothing is modulated: the script completes with
    [modulation_index = 0], an all-zero baseband, a modulated signal equal
    to the carrier and constant envelopes [E_c] and [-E_c]. *)
Theorem unmodulated (p : Params) :
  completes p -> E_m p = 0 ->
  exists o, run p = Ok o /\
    out_modulation_index o = 0 /\
    forall i, (i < out_N o)%nat ->
      nth i (out_baseband_signal o) 0 = 0 /\
      nth i (out_modulated_signal o) 0 = nth i (out_carrier_signal o) 0 /\
      nth i (out_upper_envelope o) 0 = E_c p /\
      nth i (out_lower_envelope o) 0 = - E_c p.
Proof.
  intros Hc Hm.
  destruct (run_completes p Hc) as (l & _ & Hlen & Hrun).
  exists (workspace p l). split; [exact Hrun|]. simpl.
  split; [rewrite Hm; unfold Rdiv; ring|].
  intros i Hi.
  assert (Hb : (i < length (baseband_signal p l))%nat)
    by now rewrite baseband_signal_length.
  rewrite lower_envelope_nth, upper_envelope_nth by assumption.
  rewrite modulated_signal_nth by auto using baseband_signal_length.
  rewrite baseband_signal_nth, carrier_signal_nth by assumption.
  rewrite Hm. repeat split; ring.
Qed.

Lemma unmodulated_witness :
  completes (mkParams 0 150 200 3000 (1 / 10) 1000) /\
  exists o, run (mkParams 0 150 200 3000 (1 / 10) 1000) = Ok o /\
    out_modulation_index o = 0.
Proof.
  assert (Hc : completes (mkParams 0 150 200 3000 (1 / 10) 1000)).
  { split; simpl; [lia | lra]. }
  split; [exact Hc|].
  destruct (unmodulated _ Hc eq_refl) as (o & Hrun & Hi & _).
  exists o. auto.
Defined.
